(** * The UAST type-usage report generator ([_tools/types/main.go])

    The program lists the official drivers, clones or pulls every driver
    repository (one goroutine per driver, gated by a buffered channel of
    capacity 3 and joined by a [sync.WaitGroup]), runs the two analysis
    stubs over every driver and prints a Markdown table.

    Sequential code is embedded as functions.  Go maps are reference
    values: the two usage maps of a [driverStats] live in a store and the
    record holds their addresses.  The goroutines of
    [maybeCloneOrPullAll] are embedded as an interleaving transition
    system whose steps are the statements of the source.  Diagnostics
    written to [os.Stderr] are not part of the model. *)

From Stdlib Require Import Ascii.
From stdpp Require Import gmap strings list pretty.

Open Scope Z_scope.

(** ** Go library functions used by the program *)

Module Go.

Definition nl : string := String (Ascii.ascii_of_nat 10) EmptyString.

(** [int] is 64 bits wide on the platforms the tool runs on. *)
Definition wrap64 (z : Z) : Z := (z + 2 ^ 63) `mod` 2 ^ 64 - 2 ^ 63.

(** [error] values: the message of [Error()] and what [os.IsNotExist]
    answers for the value; [nil] is [None]. *)
Record error := mkError { Error : string; not_exist : bool }.

Definition os_IsNotExist (err : option error) : bool :=
  match err with
  | Some e => not_exist e
  | None => false
  end.

(** [fmt.Errorf(prefix + "%s", err)] *)
Definition fmt_Errorf_s (prefix : string) (err : error) : error :=
  {| Error := prefix +:+ Error err; not_exist := false |}.

(** A computation that may panic. *)
Inductive outcome (A : Type) : Type :=
| Ret (a : A)
| Panic (msg : string).
Arguments Ret {A} a.
Arguments Panic {A} msg.

Definition bind {A B} (m : outcome A) (f : A -> outcome B) : outcome B :=
  match m with
  | Ret a => f a
  | Panic msg => Panic msg
  end.

(** [len(s)] *)
Definition len (s : string) : Z := Z.of_nat (String.length s).

(** [strings.LastIndex(s, substr)]: the index of the last occurrence of
    [substr] in [s], or -1. *)
Fixpoint last_index_from (substr s : string) (i acc : Z) : Z :=
  let acc' := if String.prefix substr s then i else acc in
  match s with
  | EmptyString => acc'
  | String _ s' => last_index_from substr s' (i + 1) acc'
  end.

Definition strings_LastIndex (s substr : string) : Z :=
  last_index_from substr s 0 (-1).

Fixpoint string_drop (n : nat) (s : string) : string :=
  match n, s with
  | O, _ => s
  | S n', String _ s' => string_drop n' s'
  | S _, EmptyString => EmptyString
  end.

(** The slice expression [s[i:]]; out of range indices panic. *)
Definition slice_from (s : string) (i : Z) : outcome string :=
  if (i <? 0) || (len s <? i)
  then Panic "runtime error: slice bounds out of range"
  else Ret (string_drop (Z.to_nat i) s).

(** [utf8.RuneCountInString]: every byte that does not start a
    well-formed encoding counts as one rune. *)
Definition first (c : N) : option (nat * N * N) :=
  (if (c <? 0xC2) then None
   else if (c <? 0xE0) then Some (2%nat, 0x80, 0xBF)
   else if (c =? 0xE0) then Some (3%nat, 0xA0, 0xBF)
   else if (c =? 0xED) then Some (3%nat, 0x80, 0x9F)
   else if (c <? 0xF0) then Some (3%nat, 0x80, 0xBF)
   else if (c =? 0xF0) then Some (4%nat, 0x90, 0xBF)
   else if (c <? 0xF4) then Some (4%nat, 0x80, 0xBF)
   else if (c =? 0xF4) then Some (4%nat, 0x80, 0x8F)
   else None)%N.

Definition continuation (c : N) : bool := ((0x80 <=? c) && (c <=? 0xBF))%N.

Definition rune_size (c : N) (rest : list N) : nat :=
  if (c <? 0x80)%N then 1%nat
  else match first c with
       | None => 1%nat
       | Some (size, lo, hi) =>
         if (S (length rest) <? size)%nat then 1%nat
         else match rest with
              | c1 :: r1 =>
                if ((c1 <? lo) || (hi <? c1))%N then 1%nat
                else if (size =? 2)%nat then 2%nat
                else match r1 with
                     | c2 :: r2 =>
                       if negb (continuation c2) then 1%nat
                       else if (size =? 3)%nat then 3%nat
                       else match r2 with
                            | c3 :: _ =>
                              if negb (continuation c3) then 1%nat else 4%nat
                            | [] => 1%nat
                            end
                     | [] => 1%nat
                     end
              | [] => 1%nat
              end
       end.

Fixpoint rune_count (skip : nat) (s : list N) : nat :=
  match s with
  | [] => 0%nat
  | c :: rest =>
    match skip with
    | S k => rune_count k rest
    | O => S (rune_count (rune_size c rest - 1) rest)
    end
  end.

Fixpoint bytes (s : string) : list N :=
  match s with
  | EmptyString => []
  | String a s' => Ascii.N_of_ascii a :: bytes s'
  end.

Definition utf8_RuneCountInString (s : string) : nat :=
  rune_count 0 (bytes s).

Fixpoint spaces (n : nat) : string :=
  match n with
  | O => EmptyString
  | S n' => " " +:+ spaces n'
  end.

(** The verb [%Ns]: the operand padded with spaces on the left up to
    [wid] runes, never truncated. *)
Definition fmt_s (wid : nat) (s : string) : string :=
  spaces (wid - utf8_RuneCountInString s) +:+ s.

(** The verb [%d] on an [int]. *)
Definition fmt_d (n : Z) : string := pretty n.

(** A type as [reflect.TypeOf] sees it: the package name and the type
    name of a defined type. [String()] joins them with a dot. *)
Record reflect_Type := mkType { pkg_name : string; type_name : string }.

Definition reflect_Type_String (t : reflect_Type) : string :=
  pkg_name t +:+ "." +:+ type_name t.

End Go.

Import Go.

(** ** Data model *)

(** A Go [map[string]int] is a reference to a table in the store.  A
    reference with no table behind it behaves as the [nil] map: reads give
    the zero value, an assignment panics. *)
Abbreviation map_ref := nat.
Abbreviation store := (list (gmap string Z)).

(** [make(map[string]int)] *)
Definition make_map (h : store) : map_ref * store :=
  (length h, h ++ [∅]).

(** The index expression [m[k]]: the zero value when the key is absent. *)
Definition map_index (h : store) (m : map_ref) (k : string) : Z :=
  match h !! m with
  | Some tbl => match tbl !! k with Some v => v | None => 0 end
  | None => 0
  end.

(** The assignment [m[k] = v]. *)
Definition map_assign (h : store) (m : map_ref) (k : string) (v : Z)
  : outcome store :=
  match h !! m with
  | Some tbl => Ret (<[m := <[k := v]> tbl]> h)
  | None => Panic "assignment to entry in nil map"
  end.

Record driverStats := mkDriverStats {
  url : string;
  language : string;
  path : string;
  fixturesUast : map_ref;
  codeUast : map_ref
}.

Record uastType := mkUastType { name : string }.

(** One entry of [discovery.OfficialDrivers]: the language and what the
    method [RepositoryURL()] returns. *)
Record discovery_Driver := mkDiscoveryDriver {
  Language : string;
  RepositoryURL : string
}.

Definition repoRootPath : string := "./drivers/".

(** ** listDrivers *)

(** The body of the loop of [listDrivers]: one [driverStats] with two
    fresh maps. *)
Definition newDriverStats (h : store) (l : discovery_Driver)
  : outcome (driverStats * store) :=
  bind (slice_from (RepositoryURL l) (strings_LastIndex (RepositoryURL l) "/"))
       (fun p =>
          let '(fx, h1) := make_map h in
          let '(cd, h2) := make_map h1 in
          Ret ({| url := RepositoryURL l;
                  language := Language l;
                  path := p;
                  fixturesUast := fx;
                  codeUast := cd |}, h2)).

Fixpoint appendDrivers (h : store) (drivers : list driverStats)
         (langs : list discovery_Driver) : outcome (list driverStats * store) :=
  match langs with
  | [] => Ret (drivers, h)
  | l :: langs' =>
    bind (newDriverStats h l)
         (fun '(d, h') => appendDrivers h' (drivers ++ [d]) langs')
  end.

(** [listDrivers]: the answer of [discovery.OfficialDrivers] is an input. *)
Definition listDrivers (h : store)
           (official : list discovery_Driver * option error)
  : outcome ((list driverStats * option error) * store) :=
  match official with
  | (_, Some err) => Ret (([], Some err), h)
  | (langs, None) =>
    bind (appendDrivers h [] langs)
         (fun '(drivers, h') => Ret ((drivers, None), h'))
  end.

(** ** findAllUastTypes *)

Definition uast (n : string) : reflect_Type :=
  {| pkg_name := "uast"; type_name := n |}.

Definition types : list reflect_Type :=
  [ uast "Identifier"; uast "String"; uast "Bool";
    uast "QualifiedIdentifier"; uast "Comment"; uast "Group";
    uast "FunctionGroup"; uast "Block"; uast "Alias"; uast "Import";
    uast "RuntimeImport"; uast "RuntimeReImport"; uast "InlineImport";
    uast "Argument"; uast "FunctionType"; uast "Function" ].

Definition findAllUastTypes : list uastType :=
  fold_left (fun out typee => out ++ [mkUastType (reflect_Type_String typee)])
            types [].

(** ** The analysis stubs *)

Definition analyzeFixtures (h : store) (driver : driverStats) : store := h.

(** [driver.codeUast["Identifier"]++] *)
Definition analyzeCode (h : store) (driver : driverStats)
           (uasts : list uastType) : outcome store :=
  map_assign h (codeUast driver) "Identifier"
             (wrap64 (map_index h (codeUast driver) "Identifier" + 1)).

(** ** The report *)

Definition header : string :=
  "<!-- Code generated by 'make types' DO NOT EDIT. -->" +:+ nl +:+
  "# UAST Types" +:+ nl +:+
  nl +:+
  "For every UAST type in every Driver 2 numbers are reported:" +:+ nl +:+
  " - _fixtures usage_ number of times this type was used in driver _fixtures_ ("
    +:+ "*.sem.uast files)" +:+ nl +:+
  " - _code usage_ number of times this type was usind in driver mapping DSL code (normalizer.go)"
    +:+ nl +:+
  nl +:+
  "in the format _<fixtures usage>/<code usage>_." +:+ nl +:+
  nl.

Definition footer : string :=
  nl +:+
  "**Don't see your favorite AST construct mapped? [Help us!](join-the-community.md)**"
  +:+ nl.

(** What a loop of print statements writes. *)
Definition print_each {A} (f : A -> string) (l : list A) : string :=
  fold_right (fun a out => f a +:+ out) "" l.

Definition formatMarkdownTableHeader (drivers : list driverStats) : string :=
  "|" +:+ fmt_s 25 "" +:+ "|"
  +:+ print_each (fun dr => fmt_s 5 (language dr) +:+ "|") drivers
  +:+ nl +:+ "| :---------------------- |"
  +:+ print_each (fun _ : driverStats => " :-- |") drivers
  +:+ nl.

(** One cell: [fmt.Printf(" %d/%d |", ...)]. *)
Definition cell (h : store) (typee : uastType) (dr : driverStats) : string :=
  " " +:+ fmt_d (map_index h (fixturesUast dr) (name typee))
      +:+ "/" +:+ fmt_d (map_index h (codeUast dr) (name typee)) +:+ " |".

(** One iteration of the outer loop of [formatMarkdownTable]. *)
Definition row (h : store) (drivers : list driverStats) (typee : uastType)
  : string :=
  "|" +:+ fmt_s 25 (name typee) +:+ "|"
  +:+ print_each (cell h typee) drivers
  +:+ nl.

(** [formatMarkdownTable]: everything it writes to standard output, the
    deferred footer last. *)
Definition formatMarkdownTable (h : store) (drivers : list driverStats)
           (uastTypes : list uastType) : string :=
  header
  +:+ formatMarkdownTableHeader drivers
  +:+ print_each (row h drivers) uastTypes
  +:+ footer.

(** ** maybeCloneOrPull *)

(** What one call of [maybeCloneOrPull] observes of its host: [path.Join],
    [os.Stat] on a path, and [cmd.Run()] for an argument vector started
    in the directory [cmd.Dir]. *)
Record host := mkHost {
  path_Join : string -> string -> string;
  os_Stat : string -> option error;
  cmd_Run : list string -> string -> option error
}.

Definition maybeCloneOrPull (w : host) (d : driverStats) : option error :=
  let repoPath := path_Join w repoRootPath (path d) in
  let err := os_Stat w repoPath in
  if bool_decide (err ≠ None) && negb (os_IsNotExist err) then err
  else if os_IsNotExist err then
    let err := cmd_Run w ["git"; "clone"; url d +:+ ".git"] repoRootPath in
    if bool_decide (err ≠ None) then err else None
  else
    let err := cmd_Run w ["git"; "pull"; "origin"; "master"] repoPath in
    if bool_decide (err ≠ None) then err else None.

(** ** The program as a transition system *)

(** Where the main goroutine stands, in [run] and in
    [maybeCloneOrPullAll]. *)
Inductive main_pc :=
| RunListDrivers                  (* run: drivers, err := listDrivers() *)
| AllMkdirAll                     (* os.MkdirAll(repoRootPath, ...) *)
| AllAdd (i : nat)                (* for i := range drivers; wg.Add(1) *)
| AllGo (i : nat)                 (* go maybeCloneOrPullAsync(&drivers[i], ...) *)
| AllWait                         (* wg.Wait() *)
| AllReturn (err : option error)  (* maybeCloneOrPullAll returned err to run *)
| RunAnalyze (i : nat)            (* for _, driver := range drivers *)
| RunFormat                       (* formatMarkdownTable(drivers, uastTypes) *)
| Exit (err : option error)       (* run returned err *)
| Panicked (msg : string).

(** Where a goroutine running [maybeCloneOrPullAsync] stands.  The two
    deferred calls run in reverse order of their [defer] statements: first
    the receive from [concurent], then [wg.Done()]. *)
Inductive goroutine :=
| AtSend                          (* concurent <- 1 *)
| AtCall                          (* maybeCloneOrPull(d) *)
| AtRecv (r : option error)       (* deferred: <-concurent *)
| AtDone (r : option error)       (* deferred: wg.Done() *)
| Exited (r : option error).      (* returned r, which the go statement drops *)

(** The inputs of one run: what [discovery.OfficialDrivers] and
    [os.MkdirAll] answer, and the host as the goroutine started for
    [drivers[j]] finds it. *)
Record environment := mkEnvironment {
  official : list discovery_Driver * option error;
  os_MkdirAll : option error;
  host_of : nat -> host
}.

(** The goroutine at position [j] of [goroutines] is the one started with
    [&drivers[j]]. [concurent] is the buffer of the channel made with
    capacity 3. *)
Record state := mkState {
  pc : main_pc;
  heap : store;
  drivers : list driverStats;
  uastTypes : list uastType;
  wg : Z;
  concurent : list Z;
  goroutines : list goroutine;
  stdout : string
}.

Definition set_pc (p : main_pc) (s : state) : state :=
  mkState p (heap s) (drivers s) (uastTypes s) (wg s) (concurent s)
          (goroutines s) (stdout s).

Definition set_goroutine (j : nat) (g : goroutine) (s : state) : state :=
  mkState (pc s) (heap s) (drivers s) (uastTypes s) (wg s) (concurent s)
          (<[j := g]> (goroutines s)) (stdout s).

Definition set_wg (n : Z) (s : state) : state :=
  mkState (pc s) (heap s) (drivers s) (uastTypes s) n (concurent s)
          (goroutines s) (stdout s).

Definition set_concurent (c : list Z) (s : state) : state :=
  mkState (pc s) (heap s) (drivers s) (uastTypes s) (wg s) c
          (goroutines s) (stdout s).

Definition concurent_cap : nat := 3.

Inductive thread := Main | Async (j : nat).

Definition step_main (e : environment) (s : state) : option state :=
  match pc s with
  | RunListDrivers =>
    match listDrivers (heap s) (official e) with
    | Panic msg => Some (set_pc (Panicked msg) s)
    | Ret ((_, Some err), _) =>
      Some (set_pc (Exit (Some (fmt_Errorf_s "failed to list drivers: " err))) s)
    | Ret ((ds, None), h) =>
      Some (mkState AllMkdirAll h ds (uastTypes s) (wg s) (concurent s)
                    (goroutines s) (stdout s))
    end
  | AllMkdirAll =>
    match os_MkdirAll e with
    | Some err => Some (set_pc (AllReturn (Some err)) s)
    | None => Some (set_pc (AllAdd 0) s)
    end
  | AllAdd i =>
    if bool_decide (i < length (drivers s))%nat
    then Some (set_pc (AllGo i) (set_wg (wg s + 1) s))
    else Some (set_pc AllWait s)
  | AllGo i =>
    Some (mkState (AllAdd (S i)) (heap s) (drivers s) (uastTypes s) (wg s)
                  (concurent s) (goroutines s ++ [AtSend]) (stdout s))
  | AllWait =>
    if bool_decide (wg s = 0) then Some (set_pc (AllReturn None) s) else None
  | AllReturn (Some err) =>
    Some (set_pc (Exit (Some (fmt_Errorf_s "failed to pull driver repos: " err))) s)
  | AllReturn None =>
    Some (mkState (RunAnalyze 0) (heap s) (drivers s) findAllUastTypes (wg s)
                  (concurent s) (goroutines s) (stdout s))
  | RunAnalyze i =>
    match drivers s !! i with
    | Some driver =>
      match analyzeCode (analyzeFixtures (heap s) driver) driver (uastTypes s) with
      | Ret h =>
        Some (mkState (RunAnalyze (S i)) h (drivers s) (uastTypes s) (wg s)
                      (concurent s) (goroutines s) (stdout s))
      | Panic msg => Some (set_pc (Panicked msg) s)
      end
    | None => Some (set_pc RunFormat s)
    end
  | RunFormat =>
    Some (mkState (Exit None) (heap s) (drivers s) (uastTypes s) (wg s)
                  (concurent s) (goroutines s)
                  (stdout s +:+ formatMarkdownTable (heap s) (drivers s) (uastTypes s)))
  | Exit _ => None
  | Panicked _ => None
  end.

(** The process is over once [run] has returned or a panic went
    unrecovered. *)
Definition terminated (p : main_pc) : bool :=
  match p with
  | Exit _ | Panicked _ => true
  | _ => false
  end.

Definition step_async (e : environment) (j : nat) (s : state) : option state :=
  if terminated (pc s) then None else
  match goroutines s !! j with
  | Some AtSend =>
    if bool_decide (length (concurent s) < concurent_cap)%nat
    then Some (set_goroutine j AtCall (set_concurent (concurent s ++ [1]) s))
    else None
  | Some AtCall =>
    match drivers s !! j with
    | Some d => Some (set_goroutine j (AtRecv (maybeCloneOrPull (host_of e j) d)) s)
    | None => None
    end
  | Some (AtRecv r) =>
    match concurent s with
    | _ :: rest => Some (set_goroutine j (AtDone r) (set_concurent rest s))
    | [] => None
    end
  | Some (AtDone r) =>
    if bool_decide (wg s - 1 < 0)
    then Some (set_pc (Panicked "sync: negative WaitGroup counter") s)
    else Some (set_goroutine j (Exited r) (set_wg (wg s - 1) s))
  | Some (Exited _) => None
  | None => None
  end.

Definition step (e : environment) (t : thread) (s : state) : option state :=
  match t with
  | Main => step_main e s
  | Async j => step_async e j s
  end.

(** Running a schedule: the threads that take the successive steps. *)
Fixpoint exec (e : environment) (sched : list thread) (s : state)
  : option state :=
  match sched with
  | [] => Some s
  | t :: sched' =>
    match step e t s with
    | Some s' => exec e sched' s'
    | None => None
    end
  end.

Inductive steps (e : environment) (s : state) : state -> Prop :=
| steps_refl : steps e s s
| steps_step t s' s'' :
    steps e s s' -> step e t s' = Some s'' -> steps e s s''.

(** The program starts in [run]; [maybeCloneOrPullAll] is entered with a
    slice of drivers. *)
Definition run_entry : state :=
  mkState RunListDrivers [] [] [] 0 [] [] "".

Definition all_entry (ds : list driverStats) (h : store) : state :=
  mkState AllMkdirAll h ds [] 0 [] [] "".

Inductive entry : state -> Prop :=
| entry_run : entry run_entry
| entry_all ds h : entry (all_entry ds h).

Definition reachable (e : environment) (s : state) : Prop :=
  exists s0, entry s0 /\ steps e s0 s.

(** ** Accounting for the channel and the wait group *)

(** A goroutine holds a slot of [concurent] from its send until its
    deferred receive; it is counted by [wg] until its deferred [Done]. *)
Definition holds_slot (g : goroutine) : nat :=
  match g with
  | AtCall | AtRecv _ => 1%nat
  | _ => 0%nat
  end.

Definition pending (g : goroutine) : nat :=
  match g with
  | Exited _ => 0%nat
  | _ => 1%nat
  end.

Definition holders (s : state) : nat := sum_list_with holds_slot (goroutines s).
Definition unfinished (s : state) : nat := sum_list_with pending (goroutines s).

(** The result a goroutine carries is the one of its own call. *)
Definition carries (e : environment) (ds : list driverStats) (j : nat)
           (g : goroutine) : Prop :=
  match g with
  | AtRecv r | AtDone r | Exited r =>
    exists d, ds !! j = Some d /\ r = maybeCloneOrPull (host_of e j) d
  | _ => True
  end.

Definition pc_inv (s : state) : Prop :=
  match pc s with
  | RunListDrivers | AllMkdirAll => goroutines s = [] /\ wg s = 0
  | AllAdd i =>
    length (goroutines s) = i /\ (i <= length (drivers s))%nat /\
    wg s = Z.of_nat (unfinished s)
  | AllGo i =>
    length (goroutines s) = i /\ (i < length (drivers s))%nat /\
    wg s = Z.of_nat (unfinished s) + 1
  | AllWait =>
    length (goroutines s) = length (drivers s) /\
    wg s = Z.of_nat (unfinished s)
  | AllReturn None | RunAnalyze _ | RunFormat | Exit None =>
    length (goroutines s) = length (drivers s) /\
    unfinished s = 0%nat /\ wg s = 0
  | AllReturn (Some _) | Exit (Some _) => goroutines s = []
  | Panicked _ => unfinished s = 0%nat
  end.

Record inv (e : environment) (s : state) : Prop := mkInv {
  inv_slots : length (concurent s) = holders s;
  inv_cap : (length (concurent s) <= concurent_cap)%nat;
  inv_wg : 0 <= wg s /\ Z.of_nat (unfinished s) <= wg s;
  inv_carries :
    forall j g, goroutines s !! j = Some g -> carries e (drivers s) j g;
  inv_pc : pc_inv s
}.

Definition weight (g : goroutine) : nat :=
  match g with
  | AtSend => 4
  | AtCall => 3
  | AtRecv _ => 2
  | AtDone _ => 1
  | Exited _ => 0
  end%nat.

(** The steps the main goroutine and the goroutines it has yet to start
    still have ahead, for [n] drivers. *)
Definition main_weight (n : nat) (p : main_pc) : nat :=
  match p with
  | RunListDrivers => 0
  | AllMkdirAll => 7 * n + 7
  | AllAdd i => 6 * (n - i) + n + 5
  | AllGo i => 6 * (n - i) + n + 4
  | AllWait => n + 4
  | AllReturn _ => n + 3
  | RunAnalyze i => (n - i) + 2
  | RunFormat => 1
  | Exit _ | Panicked _ => 0
  end%nat.

Definition weight_of (s : state) : nat :=
  (main_weight (length (drivers s)) (pc s)
   + sum_list_with weight (goroutines s))%nat.

Definition measure (e : environment) (s : state) : nat :=
  match pc s with
  | RunListDrivers =>
    match step_main e s with
    | Some s' => S (weight_of s')
    | None => 0%nat
    end
  | _ => weight_of s
  end.

(** The main goroutine inside [maybeCloneOrPullAll], before its return. *)
Definition before_return (p : main_pc) : bool :=
  match p with
  | AllMkdirAll | AllAdd _ | AllGo _ | AllWait => true
  | _ => false
  end.

Definition returned (p : main_pc) : bool :=
  match p with
  | AllReturn _ => true
  | _ => false
  end.

(** The loop is entered only after [os.MkdirAll] succeeded, and the value
    returned is the error of [os.MkdirAll]. *)
Definition mkdir_inv (e : environment) (s : state) : Prop :=
  match pc s with
  | AllAdd _ | AllGo _ | AllWait => os_MkdirAll e = None
  | AllReturn r => r = os_MkdirAll e
  | _ => True
  end.

(** ** Concrete runs used to exercise the theorems *)

Module Sample.

(** [path.Join] on the arguments the program passes it: the root
    [./drivers/] and a path that starts with a slash. *)
Definition join (dir elem : string) : string := "drivers" +:+ elem.

Definition no_such_file : error :=
  mkError "stat drivers/go-driver: no such file or directory" true.
Definition exit_128 : error := mkError "exit status 128" false.

(** Nothing is cloned yet and [git] succeeds. *)
Definition online : host := mkHost join (fun _ => Some no_such_file) (fun _ _ => None).

(** Nothing is cloned yet and [git] fails. *)
Definition offline : host :=
  mkHost join (fun _ => Some no_such_file) (fun _ _ => Some exit_128).

Definition langs : list discovery_Driver :=
  [ mkDiscoveryDriver "go" "https://github.com/bblfsh/go-driver";
    mkDiscoveryDriver "python" "https://github.com/bblfsh/python-driver";
    mkDiscoveryDriver "java" "https://github.com/bblfsh/java-driver";
    mkDiscoveryDriver "ruby" "https://github.com/bblfsh/ruby-driver" ].

(** Four drivers; the clone of the second one fails. *)
Definition env : environment :=
  mkEnvironment (langs, None) None
                (fun j => if bool_decide (j = 1%nat) then offline else online).

Definition or_else (s : state) (o : option state) : state :=
  match o with
  | Some s' => s'
  | None => s
  end.

(** [listDrivers], [os.MkdirAll], the four rounds of the loop. *)
Definition spawn_all : list thread :=
  [Main; Main; Main; Main; Main; Main; Main; Main; Main; Main; Main].

(** The first three goroutines send and start their calls; the fourth
    stays blocked at its send. *)
Definition sched_busy : list thread :=
  spawn_all ++ [Async 0; Async 1; Async 2]%nat.

Definition busy : state := or_else run_entry (exec env sched_busy run_entry).

(** Every goroutine runs to its end, in a mixed order; then [wg.Wait()]
    returns. *)
Definition sched_sync : list thread :=
  sched_busy
    ++ [Async 1; Async 0; Async 1; Async 3; Async 1; Async 2; Async 3;
        Async 0; Async 2; Async 3; Async 0; Async 2; Async 3; Main]%nat.

(** The rest of [run]: the return to [run], four analysis rounds, the
    end of the loop, the report. *)
Definition sched_run : list thread :=
  sched_sync ++ [Main; Main; Main; Main; Main; Main; Main].

Definition finished : state := or_else run_entry (exec env sched_run run_entry).

(** One driver handed to [maybeCloneOrPullAll], on a host where the
    clone fails and on one where it succeeds. *)
Definition go_driver : driverStats :=
  mkDriverStats "https://github.com/bblfsh/go-driver" "go" "/go-driver" 0%nat 1%nat.

Definition env_fail : environment :=
  mkEnvironment ([], None) None (fun _ => offline).
Definition env_ok : environment :=
  mkEnvironment ([], None) None (fun _ => online).

(** [os.MkdirAll], one round of the loop, the end of the loop, the four
    steps of the goroutine, the return of [wg.Wait()]. *)
Definition sched_solo : list thread :=
  [Main; Main; Main; Main; Async 0; Async 0; Async 0; Async 0; Main]%nat.

Definition solo (e : environment) : state :=
  or_else run_entry (exec e sched_solo (all_entry [go_driver] [∅; ∅])).

End Sample.

Definition executing (g : goroutine) : nat :=
  match g with
  | AtCall => 1%nat
  | _ => 0%nat
  end.

(** The stages of [run] that come after the synchronisation. *)
Definition extraction_or_report (p : main_pc) : bool :=
  match p with
  | RunAnalyze _ | RunFormat | Exit None => true
  | _ => false
  end.

(** ** listDrivers: the derivation of [path] *)

Fixpoint slash_free (s : string) : bool :=
  match s with
  | EmptyString => true
  | String c s' =>
    if Ascii.ascii_dec "/"%char c then false else slash_free s'
  end.

(** Two driver records show the same usage of the types [ts]: the same
    language and, in their respective stores, the same counts. *)
Definition same_usage (h1 h2 : store) (ts : list uastType)
           (d1 d2 : driverStats) : Prop :=
  language d1 = language d2 /\
  forall t, t ∈ ts ->
    map_index h1 (fixturesUast d1) (name t) =
    map_index h2 (fixturesUast d2) (name t) /\
    map_index h1 (codeUast d1) (name t) = map_index h2 (codeUast d2) (name t).

(** The scenario of the specification: the catalog [Identifier, Comment],
    a driver A that used [Identifier] three times in its fixtures and once
    in its code and [Comment] twice in its code, a driver B with empty
    maps. *)
Module Scenario.

Definition catalog : list uastType :=
  [mkUastType "Identifier"; mkUastType "Comment"].

Definition maps : store :=
  [ {["Identifier" := 3]}; {["Identifier" := 1; "Comment" := 2]}; ∅; ∅ ].

Definition A : driverStats := mkDriverStats "" "A" "" 0%nat 1%nat.
Definition B : driverStats := mkDriverStats "" "B" "" 2%nat 3%nat.

(** The same records with their maps at other addresses. *)
Definition maps' : store :=
  [ ∅; {["Comment" := 2; "Identifier" := 1]}; ∅; {["Identifier" := 3]} ].

Definition A' : driverStats := mkDriverStats "" "A" "" 3%nat 1%nat.
Definition B' : driverStats := mkDriverStats "" "B" "" 0%nat 2%nat.

End Scenario.

(** ** The whole run: what listDrivers builds *)

(** The [k]-th driver owns the maps at the addresses [2k] and [2k+1]. *)
Definition wired (base : nat) (ds : list driverStats) : Prop :=
  forall k d, ds !! k = Some d ->
    fixturesUast d = (base + 2 * k)%nat /\ codeUast d = (base + 2 * k + 1)%nat.

(** What [run] holds after a successful [listDrivers]. *)
Definition listed (e : environment) (ds : list driverStats) : Prop :=
  (official e).2 = None /\
  language <$> ds = Language <$> (official e).1 /\
  url <$> ds = RepositoryURL <$> (official e).1 /\
  wired 0 ds.

(** ** The whole run: what the analysis loop leaves in the maps *)

(** After [i] rounds of the loop over [n] drivers: every fixture map is
    empty, the code maps of the first [i] drivers hold the one key
    [Identifier] with the count 1, the others are empty. *)
Definition analysed_upto (i n : nat) (h : store) : Prop :=
  length h = (2 * n)%nat /\
  forall k, (k < n)%nat ->
    h !! (2 * k)%nat = Some ∅ /\
    h !! (2 * k + 1)%nat =
    Some (if bool_decide (k < i)%nat then {["Identifier" := 1]} else ∅).

(** ** The whole run: invariant of the states reached from its entry *)

Definition run_inv (e : environment) (s : state) : Prop :=
  let n := length (drivers s) in
  match pc s with
  | RunListDrivers => heap s = [] /\ stdout s = ""
  | AllMkdirAll | AllAdd _ | AllGo _ | AllWait | AllReturn _ =>
    listed e (drivers s) /\ analysed_upto 0 n (heap s) /\ stdout s = ""
  | RunAnalyze i =>
    listed e (drivers s) /\ (i <= n)%nat /\ analysed_upto i n (heap s) /\
    uastTypes s = findAllUastTypes /\ stdout s = ""
  | RunFormat =>
    listed e (drivers s) /\ analysed_upto n n (heap s) /\
    uastTypes s = findAllUastTypes /\ stdout s = ""
  | Exit None =>
    listed e (drivers s) /\ analysed_upto n n (heap s) /\
    stdout s = formatMarkdownTable (heap s) (drivers s) findAllUastTypes
  | Exit (Some _) | Panicked _ => stdout s = ""
  end.

(** A row of the report in which every driver has the cell [0/0]. *)
Definition zero_row (ds : list driverStats) (t : uastType) : string :=
  "|" +:+ fmt_s 25 (name t) +:+ "|"
  +:+ print_each (fun _ : driverStats => " 0/0 |") ds
  +:+ nl.

(** ** The whole run: how it can end *)

(** What the main goroutine's position says about the inputs of the run:
    past [listDrivers] the slice is the one [listDrivers] returned; an
    error is the wrapped error of [discovery.OfficialDrivers] or of
    [os.MkdirAll]; a panic is the one of [listDrivers]. *)
Definition exit_inv (e : environment) (s : state) : Prop :=
  match pc s with
  | RunListDrivers => True
  | AllMkdirAll | AllAdd _ | AllGo _ | AllWait | AllReturn _ =>
    exists h0, listDrivers [] (official e) = Ret ((drivers s, None), h0)
  | RunAnalyze _ | RunFormat | Exit None =>
    (exists h0, listDrivers [] (official e) = Ret ((drivers s, None), h0)) /\
    os_MkdirAll e = None
  | Exit (Some err) =>
    goroutines s = [] /\
    ((exists x, (official e).2 = Some x /\
                err = fmt_Errorf_s "failed to list drivers: " x) \/
     (exists x, (exists h0, listDrivers [] (official e) =
                            Ret ((drivers s, None), h0)) /\
                os_MkdirAll e = Some x /\
                err = fmt_Errorf_s "failed to pull driver repos: " x))
  | Panicked msg =>
    goroutines s = [] /\ listDrivers [] (official e) = Panic msg
  end.

(** More concrete runs: a registry that cannot be reached, a repository
    URL without a slash, a clone root that cannot be created. *)
Module Cases.

Definition unreachable : error := mkError "registry unreachable" false.
Definition read_only : error := mkError "mkdir ./drivers/: read-only file system" false.

Definition env_no_registry : environment :=
  mkEnvironment ([], Some unreachable) None (fun _ => Sample.online).

Definition env_bad_url : environment :=
  mkEnvironment ([mkDiscoveryDriver "go" "https://github.com/bblfsh/go-driver";
                  mkDiscoveryDriver "x" "x-driver"], None)
                None (fun _ => Sample.online).

Definition env_read_only : environment :=
  mkEnvironment (Sample.langs, None) (Some read_only) (fun _ => Sample.online).

(** The inputs of [Sample.env] with every clone failing. *)
Definition env_all_offline : environment :=
  mkEnvironment (Sample.langs, None) None (fun _ => Sample.offline).

Definition after (e : environment) (sched : list thread) : state :=
  Sample.or_else run_entry (exec e sched run_entry).

(** The goroutines run one after the other, each to its end, before the
    main goroutine goes on. *)
Definition sched_in_turn : list thread :=
  Sample.spawn_all
    ++ [Async 3; Async 3; Async 3; Async 3; Async 2; Async 2; Async 2; Async 2;
        Async 1; Async 1; Async 1; Async 1; Async 0; Async 0; Async 0; Async 0]%nat
    ++ [Main; Main; Main; Main; Main; Main; Main; Main].

End Cases.

(** ** analyzeCode called again and again *)

(** [k] calls of [analyzeCode] for the same driver, one after the
    other. *)
Fixpoint analyzeCode_times (k : nat) (h : store) (driver : driverStats)
         (uasts : list uastType) : outcome store :=
  match k with
  | O => Ret h
  | S k' =>
    bind (analyzeCode h driver uasts)
         (fun h' => analyzeCode_times k' h' driver uasts)
  end.

(** ** Characters of the report *)

Fixpoint count_char (c : ascii) (s : string) : nat :=
  match s with
  | EmptyString => 0%nat
  | String x s' =>
    ((if Ascii.eqb x c then 1 else 0) + count_char c s')%nat
  end.

Definition newline : ascii := Ascii.ascii_of_nat 10.

(** A character that is no decimal digit. *)
Definition no_digit (c : ascii) : Prop :=
  forall n : N, pretty_N_char n <> c.

(** * Proofs *)

(** ** Lemmas on the accounting *)

Lemma sum_list_with_insert {A} (f : A -> nat) (l : list A) (j : nat) (x y : A) :
  l !! j = Some x ->
  (sum_list_with f (<[j := y]> l) + f x = sum_list_with f l + f y)%nat.
Proof.
  revert j. induction l as [|a l IH]; intros [|j] Hj; simplify_eq/=; try lia.
  specialize (IH _ Hj). lia.
Qed.

Lemma sum_list_with_zero {A} (f : A -> nat) (l : list A) :
  sum_list_with f l = 0%nat <-> Forall (fun x => f x = 0%nat) l.
Proof.
  induction l as [|a l IH]; simpl.
  - split; auto.
  - rewrite Forall_cons. split.
    + intros H. split; [lia|]. apply IH. lia.
    + intros [H1 H2]. apply IH in H2. lia.
Qed.

Lemma sum_list_with_pos {A} (f : A -> nat) (l : list A) :
  (0 < sum_list_with f l)%nat -> exists j x, l !! j = Some x /\ (0 < f x)%nat.
Proof.
  induction l as [|a l IH]; simpl; [lia|].
  intros H. destruct (decide (0 < f a)%nat) as [Ha|Ha].
  - exists 0%nat, a. auto.
  - destruct IH as (j & x & Hj & Hx); [lia|]. exists (S j), x. auto.
Qed.

Lemma pending_zero_exited (gs : list goroutine) :
  sum_list_with pending gs = 0%nat ->
  forall j g, gs !! j = Some g -> exists r, g = Exited r.
Proof.
  intros H j g Hj. apply sum_list_with_zero in H.
  eapply Forall_lookup_1 in H; [|exact Hj].
  destruct g; simpl in H; try discriminate. eauto.
Qed.

Lemma holds_le_pending (gs : list goroutine) :
  (sum_list_with holds_slot gs <= sum_list_with pending gs)%nat.
Proof.
  induction gs as [|g gs IH]; simpl; [lia|]. destruct g; simpl; lia.
Qed.

Lemma carries_insert e ds (gs : list goroutine) j g' :
  (forall k g, gs !! k = Some g -> carries e ds k g) ->
  carries e ds j g' ->
  forall k g, <[j := g']> gs !! k = Some g -> carries e ds k g.
Proof.
  intros Hall Hj k g Hk. destruct (decide (j = k)) as [->|Hne].
  - destruct (decide (k < length gs)%nat) as [Hlt|Hge].
    + rewrite list_lookup_insert_eq in Hk by done. by simplify_eq.
    + rewrite list_insert_ge in Hk by lia. eauto.
  - rewrite list_lookup_insert_ne in Hk by done. eauto.
Qed.

(** ** The invariant holds in every reachable state *)

Lemma inv_entry e s : entry s -> inv e s.
Proof.
  intros [|ds h]; split; simpl; unfold holders, unfinished, concurent_cap;
    simpl; try done; try lia; intros j g Hj; by rewrite lookup_nil in Hj.
Qed.

Ltac inv_goals :=
  split; unfold pc_inv in *; simpl in *; unfold holders, unfinished in *;
  simpl in *.

Ltac inv_close :=
  try done; try lia; try (split_and!; simpl; (done || lia)).

Lemma inv_step_main e s s' :
  inv e s -> step_main e s = Some s' -> inv e s'.
Proof.
  intros [Hs Hc Hw Hr Hp] Hstep. unfold step_main in Hstep.
  unfold pc_inv in Hp. unfold holders, unfinished in *.
  destruct (pc s) eqn:Epc.
  - (* RunListDrivers *)
    destruct Hp as [Hg Hwg].
    destruct (listDrivers (heap s) (official e)) as [[[ds [err|]] h]|msg];
      simplify_eq; inv_goals; rewrite ?Hg in *; simpl; inv_close;
        try (intros j g Hj; by rewrite lookup_nil in Hj).
  - (* AllMkdirAll *)
    destruct Hp as [Hg Hwg].
    destruct (os_MkdirAll e); simplify_eq; inv_goals; rewrite ?Hg in *;
      simpl; inv_close.
  - (* AllAdd *)
    destruct Hp as (Hlen & Hle & Hwg).
    case_bool_decide; simplify_eq; inv_goals; inv_close.
  - (* AllGo *)
    destruct Hp as (Hlen & Hlt & Hwg).
    simplify_eq; inv_goals;
      rewrite ?sum_list_with_app, ?length_app; simpl; inv_close.
    intros j g Hj. apply lookup_app_Some in Hj as [Hj|[_ Hj]]; [eauto|].
    apply list_lookup_singleton_Some in Hj as [_ <-]. exact I.
  - (* AllWait *)
    destruct Hp as (Hlen & Hwg).
    case_bool_decide; simplify_eq; inv_goals; inv_close.
  - (* AllReturn *)
    destruct err; simplify_eq; inv_goals; inv_close.
  - (* RunAnalyze *)
    destruct (drivers s !! i) as [driver|];
      [destruct (analyzeCode _ _ _)|]; simplify_eq; inv_goals; inv_close.
  - (* RunFormat *)
    simplify_eq; inv_goals; inv_close.
  - discriminate.
  - discriminate.
Qed.

(** A goroutine moving from [g] to [g'], with the channel and the counter
    changed by what [g] and [g'] hold and count for. *)
Lemma inv_update e s s' j g g' :
  inv e s ->
  terminated (pc s) = false ->
  goroutines s !! j = Some g ->
  pc s' = pc s -> drivers s' = drivers s ->
  goroutines s' = <[j := g']> (goroutines s) ->
  (length (concurent s') + holds_slot g =
   length (concurent s) + holds_slot g')%nat ->
  (length (concurent s') <= concurent_cap)%nat ->
  wg s' + Z.of_nat (pending g) = wg s + Z.of_nat (pending g') ->
  (pending g' <= pending g)%nat ->
  carries e (drivers s) j g' ->
  inv e s'.
Proof.
  intros [Hs Hc Hw Hr Hp] Hterm Hj Epc Eds Egs Hslot Hcap Hwg Hpend Hcar.
  pose proof (sum_list_with_insert holds_slot _ j g g' Hj) as Hh.
  pose proof (sum_list_with_insert pending _ j g g' Hj) as Hu.
  pose proof (sum_list_with_in g pending (goroutines s)
                (list_elem_of_lookup_2 _ _ _ Hj)) as Hin.
  unfold holders, unfinished in *.
  split; unfold holders, unfinished, pc_inv in *;
    rewrite ?Epc, ?Eds, ?Egs, ?length_insert.
  - lia.
  - done.
  - lia.
  - by apply carries_insert.
  - unfold unfinished in *. rewrite ?Egs.
    destruct (pc s) as [| |i|i| |[err|]|i| |[err|]|msg];
      try discriminate Hterm;
      try (exfalso; rewrite Hp in Hj; by rewrite lookup_nil in Hj);
      try (exfalso; destruct Hp as [Hp ?]; rewrite Hp in Hj;
           by rewrite lookup_nil in Hj);
      split_and!; lia.
Qed.

Lemma inv_step_async e j s s' :
  inv e s -> step_async e j s = Some s' -> inv e s'.
Proof.
  intros Hinv Hstep. unfold step_async in Hstep.
  destruct (terminated (pc s)) eqn:Hterm; [discriminate|].
  destruct (goroutines s !! j) as [g|] eqn:Hj; [|discriminate].
  destruct g as [| |r|r|r].
  - (* concurent <- 1 *)
    case_bool_decide as Hlt; [|discriminate]. simplify_eq.
    eapply (inv_update e s _ j AtSend AtCall); eauto; simpl;
      rewrite ?length_app; simpl; unfold concurent_cap in *; lia.
  - (* maybeCloneOrPull(d) *)
    destruct (drivers s !! j) as [d|] eqn:Hd; [|discriminate]. simplify_eq.
    eapply (inv_update e s _ j AtCall (AtRecv _)); eauto; simpl;
      try lia; [apply Hinv|eauto].
  - (* <-concurent *)
    destruct (concurent s) as [|v rest] eqn:Hch; [discriminate|]. simplify_eq.
    pose proof (inv_cap _ _ Hinv) as Hcap. rewrite Hch in Hcap. simpl in Hcap.
    eapply (inv_update e s _ j (AtRecv r) (AtDone r)); eauto; simpl;
      rewrite ?Hch; simpl; try lia.
    exact (inv_carries _ _ Hinv _ _ Hj).
  - (* wg.Done() *)
    case_bool_decide as Hneg; simplify_eq.
    + pose proof (sum_list_with_in _ pending _
                    (list_elem_of_lookup_2 _ _ _ Hj)) as Hin.
      destruct Hinv as [_ _ [_ Hw] _ _]. unfold unfinished in Hw.
      simpl in Hin. lia.
    + eapply (inv_update e s _ j (AtDone r) (Exited r)); eauto; simpl;
        try lia; [apply Hinv|].
      exact (inv_carries _ _ Hinv _ _ Hj).
  - discriminate.
Qed.

Lemma inv_step e t s s' : inv e s -> step e t s = Some s' -> inv e s'.
Proof.
  destruct t as [|j]; simpl; eauto using inv_step_main, inv_step_async.
Qed.

Lemma inv_steps e s0 s : inv e s0 -> steps e s0 s -> inv e s.
Proof. induction 2; eauto using inv_step. Qed.

Lemma inv_reachable e s : reachable e s -> inv e s.
Proof. intros (s0 & H0 & Hs). eauto using inv_steps, inv_entry. Qed.

Lemma exec_steps e sched : forall s s', exec e sched s = Some s' -> steps e s s'.
Proof.
  induction sched as [|t sched IH] using rev_ind; intros s s' H.
  - simpl in H. simplify_eq. constructor.
  - assert (forall l1 l2 x, exec e (l1 ++ l2) x =
                            match exec e l1 x with
                            | Some y => exec e l2 y
                            | None => None
                            end) as Happ.
    { induction l1 as [|a l1 IHl]; intros l2 x; simpl; [done|].
      destruct (step e a x); [apply IHl|done]. }
    rewrite Happ in H. destruct (exec e sched s) as [s1|] eqn:E1; [|done].
    simpl in H. destruct (step e t s1) eqn:E2; [|done]. simplify_eq.
    eapply steps_step; eauto.
Qed.

(** ** Progress and termination *)

(** The deferred [wg.Done()] never finds the counter at zero. *)
Lemma step_async_pc e j s s' :
  inv e s -> step_async e j s = Some s' -> pc s' = pc s.
Proof.
  intros Hinv Hstep. unfold step_async in Hstep.
  destruct (terminated (pc s)); [discriminate|].
  destruct (goroutines s !! j) as [[| |r|r|r]|] eqn:Hj; try discriminate.
  - case_bool_decide; by simplify_eq.
  - destruct (drivers s !! j); by simplify_eq.
  - destruct (concurent s); by simplify_eq.
  - case_bool_decide as Hneg; [|by simplify_eq]. exfalso.
    pose proof (sum_list_with_in _ pending _
                  (list_elem_of_lookup_2 _ _ _ Hj)) as Hin.
    destruct Hinv as [_ _ [_ Hw] _ _]. unfold unfinished in Hw.
    simpl in Hin. lia.
Qed.

Lemma spawned_le e s :
  inv e s -> terminated (pc s) = false ->
  (length (goroutines s) <= length (drivers s))%nat.
Proof.
  intros Hinv Hterm. pose proof (inv_pc _ _ Hinv) as Hp. unfold pc_inv in Hp.
  destruct (pc s) as [| |i|i| |[err|]|i| |[err|]|msg];
    try discriminate Hterm; destruct_and?;
      repeat match goal with H : goroutines s = [] |- _ => rewrite H end;
      simpl; lia.
Qed.

(** A goroutine that is not blocked at its send can always take its next
    step; one at its send can when the buffer has room. *)
Lemma async_enabled e s j g :
  inv e s -> terminated (pc s) = false ->
  goroutines s !! j = Some g ->
  (0 < pending g)%nat ->
  (g = AtSend -> (length (concurent s) < concurent_cap)%nat) ->
  exists s', step_async e j s = Some s'.
Proof.
  intros Hinv Hterm Hj Hpend Hroom. unfold step_async. rewrite Hterm, Hj.
  destruct g as [| |r|r|r]; simpl in Hpend; try lia.
  - rewrite bool_decide_eq_true_2 by auto. eauto.
  - destruct (drivers s !! j) as [d|] eqn:Hd; [eauto|]. exfalso.
    apply lookup_ge_None in Hd. apply lookup_lt_Some in Hj.
    pose proof (spawned_le _ _ Hinv Hterm). lia.
  - pose proof (sum_list_with_in _ holds_slot _
                  (list_elem_of_lookup_2 _ _ _ Hj)) as Hin.
    pose proof (inv_slots _ _ Hinv) as Hs. unfold holders in Hs.
    simpl in Hin. destruct (concurent s); [simpl in Hs; lia|eauto].
  - case_bool_decide; eauto.
Qed.

Theorem progress e s :
  inv e s -> terminated (pc s) = false -> exists t s', step e t s = Some s'.
Proof.
  intros Hinv Hterm.
  destruct (step_main e s) as [s'|] eqn:Hmain; [by exists Main, s'|].
  assert (pc s = AllWait /\ wg s <> 0) as [Epc Hwg].
  { unfold step_main in Hmain.
    destruct (pc s) as [| |i|i| |[err|]|i| |[err|]|msg];
      try discriminate Hterm; try discriminate Hmain;
        repeat case_match; try discriminate Hmain.
    case_bool_decide; [discriminate|done]. }
  pose proof (inv_pc _ _ Hinv) as Hp. unfold pc_inv in Hp. rewrite Epc in Hp.
  destruct Hp as [Hlen Hw].
  destruct (decide (0 < holders s)%nat) as [Hh|Hh].
  - apply sum_list_with_pos in Hh as (j & g & Hj & Hg).
    destruct (async_enabled e s j g) as [s' Hs']; auto.
    + destruct g; simpl in *; lia.
    + intros ->. simpl in Hg. lia.
    + by exists (Async j), s'.
  - assert (0 < unfinished s)%nat as Hu by lia.
    apply sum_list_with_pos in Hu as (j & g & Hj & Hg).
    destruct (async_enabled e s j g) as [s' Hs']; auto.
    + intros _. rewrite (inv_slots _ _ Hinv). unfold concurent_cap. lia.
    + by exists (Async j), s'.
Qed.

Lemma step_decreases e t s s' :
  inv e s -> step e t s = Some s' -> (measure e s' < measure e s)%nat.
Proof.
  intros Hinv Hstep. destruct t as [|j]; simpl in Hstep.
  - pose proof (inv_pc _ _ Hinv) as Hp. unfold pc_inv in Hp.
    unfold measure. unfold step_main in Hstep |- *.
    destruct (pc s) as [| |i|i| |[err|]|i| |[err|]|msg] eqn:Epc;
      try discriminate Hstep.
    + rewrite Hstep.
      destruct (listDrivers (heap s) (official e)) as [[[ds [err|]] h]|msg];
        simplify_eq; unfold weight_of; simpl; rewrite ?Epc; simpl; lia.
    + destruct (os_MkdirAll e); simplify_eq; unfold weight_of; simpl; rewrite ?Epc; simpl; lia.
    + case_bool_decide; simplify_eq; unfold weight_of; simpl; rewrite ?Epc; simpl; lia.
    + simplify_eq. unfold weight_of; simpl. rewrite Epc.
      rewrite sum_list_with_app. simpl. lia.
    + case_bool_decide; simplify_eq; unfold weight_of; simpl; rewrite ?Epc; simpl; lia.
    + simplify_eq; unfold weight_of; simpl; rewrite ?Epc; simpl; lia.
    + simplify_eq; unfold weight_of; simpl; rewrite ?Epc; simpl; lia.
    + destruct (drivers s !! i) as [driver|] eqn:Hd.
      * apply lookup_lt_Some in Hd.
        destruct (analyzeCode _ _ _); simplify_eq; unfold weight_of; simpl;
          rewrite ?Epc; simpl; lia.
      * simplify_eq; unfold weight_of; simpl; rewrite ?Epc; simpl; lia.
    + simplify_eq; unfold weight_of; simpl; rewrite ?Epc; simpl; lia.
  - pose proof (step_async_pc _ _ _ _ Hinv Hstep) as Epc.
    unfold step_async in Hstep.
    destruct (terminated (pc s)) eqn:Hterm; [discriminate|].
    destruct (goroutines s !! j) as [g|] eqn:Hj; [|discriminate].
    assert (pc s <> RunListDrivers) as Hne.
    { intros E. pose proof (inv_pc _ _ Hinv) as Hp. unfold pc_inv in Hp.
      rewrite E in Hp. destruct Hp as [Hp _]. rewrite Hp in Hj.
      by rewrite lookup_nil in Hj. }
    assert (forall g', (weight g' < weight g)%nat ->
              drivers s' = drivers s ->
              goroutines s' = <[j := g']> (goroutines s) ->
              (measure e s' < measure e s)%nat) as Hdec.
    { intros g' Hw Eds Egs. unfold measure, weight_of.
      rewrite Epc, Eds, Egs.
      pose proof (sum_list_with_insert weight _ j g g' Hj) as Hsum.
      destruct (pc s); try done; lia. }
    destruct g as [| |r|r|r]; try discriminate.
    + case_bool_decide; [|discriminate]. simplify_eq.
      apply (Hdec AtCall); simpl; auto.
    + destruct (drivers s !! j); [|discriminate]. simplify_eq.
      eapply (Hdec (AtRecv _)); simpl; auto.
    + destruct (concurent s); [discriminate|]. simplify_eq.
      apply (Hdec (AtDone r)); simpl; auto.
    + case_bool_decide; simplify_eq; [simpl in Epc; by rewrite <- Epc in Hterm|].
      apply (Hdec (Exited r)); simpl; auto.
Qed.

(** No schedule is longer than the measure of the state it starts in. *)
Lemma exec_bounded e sched : forall s s',
  inv e s -> exec e sched s = Some s' ->
  (length sched + measure e s' <= measure e s)%nat.
Proof.
  induction sched as [|t sched IH]; intros s s' Hinv H; simpl in H.
  - simplify_eq. simpl. lia.
  - destruct (step e t s) as [s1|] eqn:E1; [|discriminate].
    pose proof (step_decreases _ _ _ _ Hinv E1).
    specialize (IH _ _ (inv_step _ _ _ _ Hinv E1) H). simpl. lia.
Qed.

(** From every state satisfying the invariant some schedule runs the
    program until [stop] holds of the main goroutine, provided the main
    goroutine cannot terminate without passing such a point. *)
Lemma runs_until (stop : main_pc -> bool) e :
  (forall p, terminated p = true -> stop p = true) ->
  forall s, inv e s ->
  exists sched s', exec e sched s = Some s' /\ stop (pc s') = true.
Proof.
  intros Hstop s. remember (measure e s) as n eqn:En. revert s En.
  induction n as [n IH] using lt_wf_ind. intros s -> Hinv.
  destruct (stop (pc s)) eqn:Hs.
  - exists [], s. auto.
  - destruct (progress e s Hinv) as (t & s1 & Hstep).
    { destruct (terminated (pc s)) eqn:Ht; [|done].
      apply Hstop in Ht. congruence. }
    destruct (IH _ (step_decreases _ _ _ _ Hinv Hstep) s1 eq_refl
                 (inv_step _ _ _ _ Hinv Hstep)) as (sched & s' & Hex & Hst).
    exists (t :: sched), s'. simpl. rewrite Hstep. auto.
Qed.

(** Under some schedule the program terminates; by [exec_bounded] no
    schedule runs for ever. *)
Lemma run_terminates e :
  exists sched s, exec e sched run_entry = Some s /\ terminated (pc s) = true.
Proof.
  apply (runs_until terminated); [done|]. apply inv_entry. constructor.
Qed.

(** ** What maybeCloneOrPullAll leaves untouched and what it returns *)

Lemma step_async_frame e j s s' :
  step_async e j s = Some s' ->
  drivers s' = drivers s /\ heap s' = heap s /\ stdout s' = stdout s /\
  uastTypes s' = uastTypes s.
Proof.
  unfold step_async. intros H.
  destruct (terminated (pc s)); [discriminate|].
  destruct (goroutines s !! j) as [[| |r|r|r]|]; try discriminate;
    repeat case_match; by simplify_eq.
Qed.

Lemma all_frame e ds h s :
  steps e (all_entry ds h) s ->
  pc s <> RunListDrivers /\
  (before_return (pc s) || returned (pc s) = true ->
   drivers s = ds /\ heap s = h /\ stdout s = "").
Proof.
  induction 1 as [|t s' s'' Hsteps [Hne IH] Hstep]; [by simpl|].
  destruct t as [|j]; simpl in Hstep.
  - unfold step_main in Hstep.
    destruct (pc s') as [| |i|i| |[err|]|i| |[err|]|msg] eqn:Epc;
      try done; repeat case_match; simplify_eq; simpl; split; try done;
        intros _; by apply IH.
  - destruct (step_async_frame _ _ _ _ Hstep) as (-> & -> & -> & _).
    rewrite (step_async_pc e j s' s''); auto.
    eapply inv_steps; [|exact Hsteps]. apply inv_entry. constructor.
Qed.

(** Case analysis on the branches a step took. *)
Ltac case_step H :=
  repeat match type of H with
         | context [match ?x with _ => _ end] => destruct x eqn:?
         end;
  simplify_eq.

Lemma mkdir_inv_steps e s0 s :
  inv e s0 -> mkdir_inv e s0 -> steps e s0 s -> mkdir_inv e s.
Proof.
  intros Hinv0 H0. induction 1 as [|t s' s'' Hsteps IH Hstep]; [done|].
  destruct t as [|j]; simpl in Hstep.
  - unfold step_main in Hstep. unfold mkdir_inv in IH |- *.
    destruct (pc s') as [| |i|i| |[err|]|i| |[err|]|msg] eqn:Epc;
      try done; case_step Hstep; simpl; done.
  - unfold mkdir_inv.
    rewrite (step_async_pc e j s' s''); eauto using inv_steps.
Qed.

Lemma mkdir_inv_reachable e s : reachable e s -> mkdir_inv e s.
Proof.
  intros (s0 & H0 & Hs).
  eapply mkdir_inv_steps; eauto using inv_entry. by destruct H0.
Qed.

(** From inside [maybeCloneOrPullAll] some schedule reaches its return. *)
Lemma reaches_return e : forall s,
  inv e s -> before_return (pc s) = true ->
  exists sched s' r, exec e sched s = Some s' /\ pc s' = AllReturn r.
Proof.
  intros s. remember (measure e s) as n eqn:En. revert s En.
  induction n as [n IH] using lt_wf_ind. intros s -> Hinv Hb.
  destruct (progress e s Hinv) as (t & s1 & Hstep).
  { by destruct (pc s). }
  pose proof (step_decreases _ _ _ _ Hinv Hstep) as Hlt.
  pose proof (inv_step _ _ _ _ Hinv Hstep) as Hinv1.
  assert (before_return (pc s1) = true \/ exists r, pc s1 = AllReturn r)
    as [Hb1|[r Hr]].
  { destruct t as [|j]; simpl in Hstep.
    - unfold step_main in Hstep.
      destruct (pc s) as [| |i|i| |[err|]|i| |[err|]|msg];
        try discriminate Hb; case_step Hstep; simpl; eauto.
    - rewrite (step_async_pc _ _ _ _ Hinv Hstep). auto. }
  - destruct (IH _ Hlt s1 eq_refl Hinv1 Hb1) as (sched & s' & r & Hex & Hr).
    exists (t :: sched), s', r. simpl. rewrite Hstep. auto.
  - exists [t], s1, r. simpl. rewrite Hstep. auto.
Qed.

(** ** The goroutines at the join *)

Lemma exited_results e s :
  inv e s -> unfinished s = 0%nat ->
  length (goroutines s) = length (drivers s) ->
  forall j d, drivers s !! j = Some d ->
    goroutines s !! j = Some (Exited (maybeCloneOrPull (host_of e j) d)).
Proof.
  intros Hinv Hu Hlen j d Hd.
  destruct (goroutines s !! j) as [g|] eqn:Hj.
  - destruct (pending_zero_exited _ Hu _ _ Hj) as [r ->].
    destruct (inv_carries _ _ Hinv _ _ Hj) as (d' & Hd' & ->). by simplify_eq.
  - apply lookup_ge_None in Hj. apply lookup_lt_Some in Hd. lia.
Qed.

Lemma pending_live e s j g :
  inv e s -> goroutines s !! j = Some g -> (0 < pending g)%nat ->
  terminated (pc s) = false.
Proof.
  intros Hinv Hj Hg. pose proof (inv_pc _ _ Hinv) as Hp. unfold pc_inv in Hp.
  pose proof (sum_list_with_in _ pending _
                (list_elem_of_lookup_2 _ _ _ Hj)) as Hin.
  unfold unfinished in Hp.
  destruct (pc s) as [| |i|i| |[err|]|i| |[err|]|msg]; try done; exfalso;
    destruct_and?; try lia; rewrite Hp in Hj; by rewrite lookup_nil in Hj.
Qed.

Lemma at_return e s r :
  reachable e s -> pc s = AllReturn r ->
  r = os_MkdirAll e /\
  (r = None ->
   length (goroutines s) = length (drivers s) /\
   forall j d, drivers s !! j = Some d ->
     goroutines s !! j = Some (Exited (maybeCloneOrPull (host_of e j) d))).
Proof.
  intros Hreach Epc.
  pose proof (inv_reachable _ _ Hreach) as Hinv.
  pose proof (mkdir_inv_reachable _ _ Hreach) as Hm.
  unfold mkdir_inv in Hm. rewrite Epc in Hm. split; [done|].
  intros ->. pose proof (inv_pc _ _ Hinv) as Hp. unfold pc_inv in Hp.
  rewrite Epc in Hp. destruct Hp as (Hlen & Hu & _).
  split; [done|]. by apply exited_results.
Qed.

Lemma executing_le_holding (gs : list goroutine) :
  (sum_list_with executing gs <= sum_list_with holds_slot gs)%nat.
Proof.
  induction gs as [|g gs IH]; simpl; [lia|]. destruct g; simpl; lia.
Qed.

(** ** Reachability of the sample states *)

Lemma exec_reachable e sched s :
  exec e sched run_entry = Some s -> reachable e s.
Proof. intros H. exists run_entry. eauto using entry, exec_steps. Qed.

Lemma busy_reachable : reachable Sample.env Sample.busy.
Proof. apply (exec_reachable _ Sample.sched_busy). by vm_compute. Qed.

Lemma finished_reachable : reachable Sample.env Sample.finished.
Proof. apply (exec_reachable _ Sample.sched_run). by vm_compute. Qed.

(** ** The synchronisation: theorems *)

(** C2: in every reachable state, whatever the number of drivers, the
    goroutines that are inside [maybeCloneOrPull] are among those that
    hold a slot of [concurent], at most 3 goroutines hold one, and the
    buffer holds exactly one element per such goroutine.  The slot is
    given back on every return of [maybeCloneOrPull]: a goroutine that
    came back with any result [r], an error or [nil], can always take
    its deferred receive, which frees one slot, and once every goroutine
    is finished the buffer is empty. *)
Theorem concurrency_cap e s :
  reachable e s ->
  (sum_list_with executing (goroutines s) <= holders s)%nat /\
  (holders s <= 3)%nat /\
  length (concurent s) = holders s /\
  (unfinished s = 0%nat -> concurent s = []) /\
  (forall j r, goroutines s !! j = Some (AtRecv r) ->
     exists s', step e (Async j) s = Some s' /\
                goroutines s' !! j = Some (AtDone r) /\
                S (length (concurent s')) = length (concurent s)).
Proof.
  intros Hreach. pose proof (inv_reachable _ _ Hreach) as Hinv.
  pose proof (inv_slots _ _ Hinv) as Hs.
  pose proof (inv_cap _ _ Hinv) as Hc. unfold concurent_cap in Hc.
  split_and!.
  - apply executing_le_holding.
  - lia.
  - done.
  - intros Hu. pose proof (holds_le_pending (goroutines s)) as Hle.
    unfold holders, unfinished in *.
    destruct (concurent s); [done|]. simpl in Hs. lia.
  - intros j r Hj. simpl. unfold step_async.
    rewrite (pending_live e s j (AtRecv r)), Hj by (simpl; auto; lia).
    pose proof (sum_list_with_in _ holds_slot _
                  (list_elem_of_lookup_2 _ _ _ Hj)) as Hin.
    unfold holders in Hs. simpl in Hin.
    destruct (concurent s) as [|v rest]; [simpl in Hs; lia|].
    eexists. split; [done|]. simpl. split; [|done].
    apply list_lookup_insert_eq. by eapply lookup_lt_Some.
Qed.

Lemma concurrency_cap_witness :
  (holders Sample.busy <= 3)%nat /\
  length (concurent Sample.busy) = holders Sample.busy.
Proof.
  pose proof (concurrency_cap Sample.env Sample.busy busy_reachable)
    as (_ & H1 & H2 & _).
  exact (conj H1 H2).
Defined.

(** C7: once [run] is in its analysis loop, in the report, or has
    returned after it, every driver has its goroutine and that goroutine
    has finished, with the result, error or [nil], of its own call of
    [maybeCloneOrPull]. *)
Theorem join_barrier e s :
  reachable e s ->
  extraction_or_report (pc s) = true ->
  length (goroutines s) = length (drivers s) /\
  forall j d, drivers s !! j = Some d ->
    goroutines s !! j = Some (Exited (maybeCloneOrPull (host_of e j) d)).
Proof.
  intros Hreach Hpc. pose proof (inv_reachable _ _ Hreach) as Hinv.
  pose proof (inv_pc _ _ Hinv) as Hp. unfold pc_inv in Hp.
  assert (length (goroutines s) = length (drivers s) /\
          unfinished s = 0%nat) as [Hlen Hu].
  { destruct (pc s) as [| |i|i| |[err|]|i| |[err|]|msg];
      try discriminate Hpc; by destruct_and?. }
  split; [done|]. by apply exited_results.
Qed.

Lemma join_barrier_witness :
  length (goroutines Sample.finished) = length (drivers Sample.finished) /\
  forall j d, drivers Sample.finished !! j = Some d ->
    goroutines Sample.finished !! j =
    Some (Exited (maybeCloneOrPull (host_of Sample.env j) d)).
Proof.
  apply (join_barrier Sample.env Sample.finished finished_reachable).
  by vm_compute.
Defined.

(** C8: when [os.MkdirAll] succeeds, [maybeCloneOrPullAll] does return,
    and in every execution the value it returns is [nil], whatever the
    calls of [maybeCloneOrPull] returned: at that point each goroutine has
    finished with the result of its own call, and no result reaches the
    caller. *)
Theorem maybeCloneOrPullAll_returns_nil e ds h :
  os_MkdirAll e = None ->
  (exists sched s,
     exec e sched (all_entry ds h) = Some s /\ pc s = AllReturn None) /\
  (forall s r, steps e (all_entry ds h) s -> pc s = AllReturn r ->
     r = None /\
     forall j d, ds !! j = Some d ->
       goroutines s !! j = Some (Exited (maybeCloneOrPull (host_of e j) d))).
Proof.
  intros Hmk.
  assert (forall s r, steps e (all_entry ds h) s -> pc s = AllReturn r ->
            r = None /\
            forall j d, ds !! j = Some d ->
              goroutines s !! j =
              Some (Exited (maybeCloneOrPull (host_of e j) d))) as Hall.
  { intros s r Hsteps Epc.
    assert (reachable e s) as Hreach by (eexists; eauto using entry).
    destruct (at_return e s r Hreach Epc) as [-> Hgs].
    destruct (all_frame e ds h s Hsteps) as [_ Hfr].
    rewrite Epc in Hfr. destruct Hfr as (Hds & _); [done|].
    split; [done|]. rewrite <- Hds. by apply Hgs. }
  split; [|done].
  destruct (reaches_return e (all_entry ds h)) as (sched & s & r & Hex & Epc).
  { apply inv_entry. constructor. }
  { done. }
  exists sched, s. split; [done|].
  by destruct (Hall s r (exec_steps _ _ _ _ Hex) Epc) as [-> _].
Qed.

Lemma maybeCloneOrPullAll_returns_nil_witness :
  exists sched s,
    exec Sample.env sched
         (all_entry (drivers Sample.busy) (heap Sample.busy)) = Some s /\
    pc s = AllReturn None.
Proof.
  exact (proj1 (maybeCloneOrPullAll_returns_nil
                  Sample.env (drivers Sample.busy) (heap Sample.busy)
                  eq_refl)).
Defined.

(** C1, as the program has it: [maybeCloneOrPullAll] starts one goroutine
    per driver, in the order of the slice, and some schedule takes it to
    its return; no schedule is longer than [7 * len(drivers) + 7] steps,
    and as long as the program has not terminated some thread can step,
    so no goroutine keeps another from finishing.  What it returns is the
    single error of [os.MkdirAll]; the slice and the maps are as they
    were.  When that error is [nil], every driver's goroutine has run to
    its end with the result of its own call of [maybeCloneOrPull],
    whatever the calls for the other drivers returned; these results are
    dropped. *)
Theorem maybeCloneOrPullAll_isolates_failures e ds h :
  (exists sched s r,
     exec e sched (all_entry ds h) = Some s /\ pc s = AllReturn r) /\
  (forall sched s, exec e sched (all_entry ds h) = Some s ->
     (length sched <= 7 * length ds + 7)%nat) /\
  (forall s, steps e (all_entry ds h) s -> terminated (pc s) = false ->
     exists t s', step e t s = Some s') /\
  (forall s r, steps e (all_entry ds h) s -> pc s = AllReturn r ->
     r = os_MkdirAll e /\ drivers s = ds /\ heap s = h /\
     (r = None ->
      length (goroutines s) = length ds /\
      forall j d, ds !! j = Some d ->
        goroutines s !! j =
        Some (Exited (maybeCloneOrPull (host_of e j) d)))).
Proof.
  assert (inv e (all_entry ds h)) as Hinv0 by (apply inv_entry; constructor).
  split_and!.
  - by apply reaches_return.
  - intros sched s Hex. pose proof (exec_bounded _ _ _ _ Hinv0 Hex) as Hb.
    assert (measure e (all_entry ds h) = 7 * length ds + 7)%nat as Hm
        by (unfold measure, weight_of; simpl; lia).
    lia.
  - intros s Hsteps Hterm. apply progress; [|done].
    by eapply inv_steps.
  - intros s r Hsteps Epc.
    assert (reachable e s) as Hreach by (eexists; eauto using entry).
    destruct (at_return e s r Hreach Epc) as [-> Hgs].
    destruct (all_frame e ds h s Hsteps) as [_ Hfr].
    rewrite Epc in Hfr. destruct Hfr as (Hds & Hh & _); [done|].
    split_and!; try done. intros Hnil. rewrite <- Hds. by apply Hgs.
Qed.

(** C1, as stated, fails: with the one driver [Sample.go_driver] the
    clone fails on the host [Sample.offline] and succeeds on
    [Sample.online], yet in both runs [maybeCloneOrPullAll] returns the
    same value, [nil], and leaves the same slice and the same maps: the
    failure is recorded nowhere and no outcome per driver is returned. *)
Lemma sync_failure_not_recorded :
  maybeCloneOrPull Sample.offline Sample.go_driver = Some Sample.exit_128 /\
  maybeCloneOrPull Sample.online Sample.go_driver = None /\
  exec Sample.env_fail Sample.sched_solo
       (all_entry [Sample.go_driver] [∅; ∅]) = Some (Sample.solo Sample.env_fail) /\
  exec Sample.env_ok Sample.sched_solo
       (all_entry [Sample.go_driver] [∅; ∅]) = Some (Sample.solo Sample.env_ok) /\
  pc (Sample.solo Sample.env_fail) = AllReturn None /\
  pc (Sample.solo Sample.env_ok) = AllReturn None /\
  drivers (Sample.solo Sample.env_fail) = drivers (Sample.solo Sample.env_ok) /\
  heap (Sample.solo Sample.env_fail) = heap (Sample.solo Sample.env_ok) /\
  stdout (Sample.solo Sample.env_fail) = stdout (Sample.solo Sample.env_ok).
Proof. split_and!; by vm_compute. Qed.

Lemma append_nil_l s : "" +:+ s = s.
Proof. reflexivity. Qed.

Lemma append_cons c a b : String c a +:+ b = String c (a +:+ b).
Proof. reflexivity. Qed.

Lemma slash_free_spec s :
  slash_free s = true <-> forall a b, s <> a +:+ "/" +:+ b.
Proof.
  induction s as [|c s IH]; cbn [slash_free].
  - split; [|done]. intros _ [|x a] b; discriminate.
  - destruct (Ascii.ascii_dec "/"%char c) as [<-|Hc].
    + split; [done|]. intros H. exfalso. by apply (H "" s).
    + rewrite IH. split.
      * intros H [|x a] b E.
        -- rewrite append_nil_l, append_cons in E. injection E as -> _. done.
        -- rewrite append_cons in E. injection E as -> E. by apply (H a b).
      * intros H a b ->. by apply (H (String c a) b).
Qed.

Lemma prefix_slash s :
  String.prefix "/" s =
  match s with
  | String c _ => if Ascii.ascii_dec "/"%char c then true else false
  | EmptyString => false
  end.
Proof.
  destruct s as [|c s]; cbn [String.prefix]; [done|].
  destruct (Ascii.ascii_dec "/"%char c); [|done]. by destruct s.
Qed.

Lemma last_index_slash_free s : forall i acc,
  slash_free s = true -> last_index_from "/" s i acc = acc.
Proof.
  induction s as [|c s IH]; intros i acc H; [done|].
  cbn [last_index_from]. rewrite prefix_slash. cbn [slash_free] in H.
  destruct (Ascii.ascii_dec "/"%char c); [discriminate|]. by apply IH.
Qed.

Lemma last_index_last_slash a b : forall i acc,
  slash_free b = true ->
  last_index_from "/" (a +:+ "/" +:+ b) i acc = i + len a.
Proof.
  unfold len. induction a as [|c a IH]; intros i acc Hb.
  - rewrite append_nil_l, append_cons, append_nil_l.
    cbn [last_index_from]. rewrite prefix_slash.
    destruct (Ascii.ascii_dec "/"%char "/"%char); [|done].
    rewrite last_index_slash_free by done. cbn [String.length]. lia.
  - rewrite append_cons. cbn [last_index_from].
    rewrite IH by done. cbn [String.length]. lia.
Qed.

Lemma string_drop_app a b : string_drop (String.length a) (a +:+ b) = b.
Proof.
  induction a as [|c a IH]; [done|]. rewrite append_cons. exact IH.
Qed.

Lemma length_append a b :
  String.length (a +:+ b) = (String.length a + String.length b)%nat.
Proof.
  induction a as [|c a IH]; [done|].
  rewrite append_cons. cbn [String.length]. by rewrite IH.
Qed.

Lemma appendDrivers_panics h l : forall langs ds msg,
  newDriverStats h l = Panic msg ->
  (forall h', newDriverStats h' l = Panic msg) ->
  l ∈ langs ->
  (forall l' h' m, newDriverStats h' l' = Panic m -> m = msg) ->
  appendDrivers h ds langs = Panic msg.
Proof.
  intros langs. revert h.
  induction langs as [|l0 langs IH]; intros h ds msg Hl Hall Hin Hmsg.
  - by apply elem_of_nil in Hin.
  - simpl. destruct (newDriverStats h l0) as [[d h1]|m] eqn:E0; simpl.
    + apply elem_of_cons in Hin as [->|Hin].
      * rewrite Hall in E0. discriminate.
      * apply IH; auto.
    + f_equal. eauto.
Qed.

(** C10: [listDrivers] takes [l.RepositoryURL()] from the index that
    [strings.LastIndex(url, "/")] returns.  When the URL has no slash
    that index is -1, the slice expression panics, and so does
    [listDrivers] on any list that contains the driver.  When the URL is
    [a/b] with no slash in [b], the index is [len(a)] and the path stored
    is [/b], the last segment with the slash in front of it. *)
Theorem listDrivers_path h l :
  ((forall a b, RepositoryURL l <> a +:+ "/" +:+ b) ->
   strings_LastIndex (RepositoryURL l) "/" = -1 /\
   slice_from (RepositoryURL l) (strings_LastIndex (RepositoryURL l) "/") =
   Panic "runtime error: slice bounds out of range" /\
   forall langs, l ∈ langs ->
     listDrivers h (langs, None) =
     Panic "runtime error: slice bounds out of range") /\
  (forall a b, RepositoryURL l = a +:+ "/" +:+ b ->
   (forall c d, b <> c +:+ "/" +:+ d) ->
   strings_LastIndex (RepositoryURL l) "/" = len a /\
   exists d h', newDriverStats h l = Ret (d, h') /\ path d = "/" +:+ b).
Proof.
  split.
  - intros Hfree. apply slash_free_spec in Hfree.
    assert (strings_LastIndex (RepositoryURL l) "/" = -1) as Hidx
        by (by apply last_index_slash_free).
    assert (forall h', newDriverStats h' l =
                       Panic "runtime error: slice bounds out of range")
      as Hpanic.
    { intros h'. unfold newDriverStats. by rewrite Hidx. }
    split_and!; [done|by rewrite Hidx|].
    intros langs Hin. unfold listDrivers.
    rewrite (appendDrivers_panics h l langs []
               "runtime error: slice bounds out of range"); auto.
    intros l' h' m. unfold newDriverStats, slice_from.
    destruct (_ || _); simpl; [congruence|].
    repeat case_match; discriminate.
  - intros a b Hurl Hb. apply slash_free_spec in Hb.
    assert (strings_LastIndex (RepositoryURL l) "/" = len a) as Hidx.
    { unfold strings_LastIndex. rewrite Hurl.
      rewrite last_index_last_slash by done. lia. }
    split; [done|]. unfold newDriverStats, slice_from. rewrite Hidx.
    assert ((len a <? 0) || (len (RepositoryURL l) <? len a) = false) as ->.
    { unfold len. rewrite Hurl, length_append.
      apply orb_false_iff. split; apply Z.ltb_ge; lia. }
    unfold len. rewrite Nat2Z.id, Hurl, string_drop_app. simpl.
    eexists _, _. split; [done|]. done.
Qed.

Example listDrivers_path_go :
  newDriverStats [] (mkDiscoveryDriver "go" "https://github.com/bblfsh/go-driver")
  = Ret (mkDriverStats "https://github.com/bblfsh/go-driver" "go" "/go-driver"
                       0%nat 1%nat, [∅; ∅]).
Proof. reflexivity. Qed.

Example listDrivers_path_no_slash :
  listDrivers [] ([mkDiscoveryDriver "go" "go-driver"], None)
  = Panic "runtime error: slice bounds out of range".
Proof. reflexivity. Qed.

(** ** The report: lemmas *)

Lemma append_assoc a b c : (a +:+ b) +:+ c = a +:+ b +:+ c.
Proof.
  induction a as [|x a IH]; [done|]. rewrite !append_cons. by rewrite IH.
Qed.

Lemma print_each_cons {A} (f : A -> string) a l :
  print_each f (a :: l) = f a +:+ print_each f l.
Proof. reflexivity. Qed.

Lemma print_each_app {A} (f : A -> string) l k :
  print_each f (l ++ k) = print_each f l +:+ print_each f k.
Proof.
  induction l as [|a l IH]; [done|].
  rewrite <- app_comm_cons, !print_each_cons, IH. by rewrite append_assoc.
Qed.

Lemma print_each_middle {A} (f : A -> string) l a k :
  print_each f (l ++ a :: k) = print_each f l +:+ f a +:+ print_each f k.
Proof. by rewrite print_each_app, print_each_cons. Qed.

Lemma print_each_ext {A} (f g : A -> string) l :
  (forall a, a ∈ l -> f a = g a) -> print_each f l = print_each g l.
Proof.
  induction l as [|a l IH]; intros H; [done|].
  rewrite !print_each_cons, H, IH; [done| |by left].
  intros b Hb. apply H. by right.
Qed.

Lemma print_each_Forall2 {A B} (f : A -> string) (g : B -> string) l k :
  Forall2 (fun a b => f a = g b) l k -> print_each f l = print_each g k.
Proof.
  induction 1 as [|a b l k Hab _ IH]; [done|].
  by rewrite !print_each_cons, Hab, IH.
Qed.

Lemma map_index_lookup h m k tbl :
  h !! m = Some tbl -> map_index h m k = default 0 (tbl !! k).
Proof. unfold map_index. intros ->. by destruct (tbl !! k). Qed.

(** ** The report: theorems *)

(** C4: the cell of type [typee] and driver [dr] shows the count stored
    under the name of the type in the fixture map, a slash, and the count
    stored in the code map, each read as 0 when the map has no such key;
    reading never fails.  A driver with two empty maps has the cell
    [0/0] in every row.  The cell stands in the row of its type at the
    position of its driver, and the row at the position of its type in
    the report. *)
Theorem report_cell h ds1 dr ds2 ts1 typee ts2 tblf tblc :
  h !! fixturesUast dr = Some tblf ->
  h !! codeUast dr = Some tblc ->
  cell h typee dr =
    " " +:+ fmt_d (default 0 (tblf !! name typee)) +:+ "/"
        +:+ fmt_d (default 0 (tblc !! name typee)) +:+ " |" /\
  (tblf !! name typee = None -> tblc !! name typee = None ->
   cell h typee dr = " 0/0 |") /\
  (tblf = ∅ -> tblc = ∅ -> forall t, cell h t dr = " 0/0 |") /\
  formatMarkdownTable h (ds1 ++ dr :: ds2) (ts1 ++ typee :: ts2) =
    header
    +:+ formatMarkdownTableHeader (ds1 ++ dr :: ds2)
    +:+ print_each (row h (ds1 ++ dr :: ds2)) ts1
    +:+ ("|" +:+ fmt_s 25 (name typee) +:+ "|"
         +:+ print_each (cell h typee) ds1
         +:+ cell h typee dr
         +:+ print_each (cell h typee) ds2
         +:+ nl)
    +:+ print_each (row h (ds1 ++ dr :: ds2)) ts2
    +:+ footer.
Proof.
  intros Hf Hc.
  assert (forall t, cell h t dr =
            " " +:+ fmt_d (default 0 (tblf !! name t)) +:+ "/"
                +:+ fmt_d (default 0 (tblc !! name t)) +:+ " |") as Hcell.
  { intros t. unfold cell.
    by rewrite (map_index_lookup _ _ _ _ Hf), (map_index_lookup _ _ _ _ Hc). }
  split_and!.
  - apply Hcell.
  - intros Hnf Hnc. by rewrite Hcell, Hnf, Hnc.
  - intros -> -> t. by rewrite Hcell, !lookup_empty.
  - unfold formatMarkdownTable. rewrite print_each_middle.
    unfold row at 2. rewrite print_each_middle.
    by rewrite !append_assoc.
Qed.

Lemma report_cell_witness :
  cell Scenario.maps (mkUastType "Identifier") Scenario.A = " 3/1 |" /\
  cell Scenario.maps (mkUastType "Comment") Scenario.A = " 0/2 |".
Proof.
  split.
  - exact (proj1 (report_cell Scenario.maps [] Scenario.A [Scenario.B]
                    [] (mkUastType "Identifier") [mkUastType "Comment"]
                    _ _ eq_refl eq_refl)).
  - exact (proj1 (report_cell Scenario.maps [] Scenario.A [Scenario.B]
                    [mkUastType "Identifier"] (mkUastType "Comment") []
                    _ _ eq_refl eq_refl)).
Defined.

(** C5: on the scenario the report has the header row with the columns A
    and B in that order, the row of [Identifier] with the cells 3/1 and
    0/0, and the row of [Comment] with the cells 0/2 and 0/0. *)
Theorem report_scenario :
  formatMarkdownTable Scenario.maps [Scenario.A; Scenario.B] Scenario.catalog =
    header
    +:+ "|                         |    A|    B|" +:+ nl
    +:+ "| :---------------------- | :-- | :-- |" +:+ nl
    +:+ "|               Identifier| 3/1 | 0/0 |" +:+ nl
    +:+ "|                  Comment| 0/2 | 0/0 |" +:+ nl
    +:+ footer.
Proof. by vm_compute. Qed.

Lemma Forall2_length_eq {A B} (P : A -> B -> Prop) l k :
  Forall2 P l k -> length l = length k.
Proof. induction 1; simpl; congruence. Qed.

Lemma print_each_const {A B} (s : string) (l : list A) (k : list B) :
  length l = length k ->
  print_each (fun _ => s) l = print_each (fun _ => s) k.
Proof.
  revert k. induction l as [|a l IH]; intros [|b k] H; try discriminate H;
    [done|].
  injection H as H. rewrite !print_each_cons. by rewrite (IH k).
Qed.

(** C6: the report is a function of what the driver records show, not of
    where their maps live: two lists of records with, pairwise, the same
    language and the same counts for the types of the catalog give the
    same text, byte for byte.  The rows follow the catalog, one row per
    entry at the position of the entry, and in the header and in every
    row the columns follow the list of drivers. *)
Theorem formatMarkdownTable_deterministic h1 h2 ds1 ds2 ts :
  Forall2 (same_usage h1 h2 ts) ds1 ds2 ->
  formatMarkdownTable h1 ds1 ts = formatMarkdownTable h2 ds2 ts /\
  (forall tsa t tsb, ts = tsa ++ t :: tsb ->
     formatMarkdownTable h1 ds1 ts =
       header +:+ formatMarkdownTableHeader ds1
       +:+ print_each (row h1 ds1) tsa
       +:+ row h1 ds1 t
       +:+ print_each (row h1 ds1) tsb
       +:+ footer) /\
  (forall dsa d dsb, ds1 = dsa ++ d :: dsb ->
     formatMarkdownTableHeader ds1 =
       "|" +:+ fmt_s 25 "" +:+ "|"
       +:+ print_each (fun dr => fmt_s 5 (language dr) +:+ "|") dsa
       +:+ (fmt_s 5 (language d) +:+ "|")
       +:+ print_each (fun dr => fmt_s 5 (language dr) +:+ "|") dsb
       +:+ nl +:+ "| :---------------------- |"
       +:+ print_each (fun _ : driverStats => " :-- |") ds1
       +:+ nl /\
     forall t, row h1 ds1 t =
       "|" +:+ fmt_s 25 (name t) +:+ "|"
       +:+ print_each (cell h1 t) dsa
       +:+ cell h1 t d
       +:+ print_each (cell h1 t) dsb
       +:+ nl).
Proof.
  intros Hsame. split_and!.
  - assert (formatMarkdownTableHeader ds1 = formatMarkdownTableHeader ds2)
      as Hhead.
    { unfold formatMarkdownTableHeader.
      rewrite (print_each_Forall2 (fun dr => fmt_s 5 (language dr) +:+ "|")
                                  (fun dr => fmt_s 5 (language dr) +:+ "|")
                                  ds1 ds2).
      - rewrite (print_each_const " :-- |" ds1 ds2); [done|].
        by eapply Forall2_length_eq.
      - eapply Forall2_impl; [exact Hsame|]. by intros d1 d2 [-> _]. }
    assert (print_each (row h1 ds1) ts = print_each (row h2 ds2) ts) as Hrows.
    { apply print_each_ext. intros t Ht. unfold row.
      rewrite (print_each_Forall2 (cell h1 t) (cell h2 t) ds1 ds2); [done|].
      eapply Forall2_impl; [exact Hsame|]. intros d1 d2 [_ Hu].
      unfold cell. by destruct (Hu t Ht) as [-> ->]. }
    unfold formatMarkdownTable. by rewrite Hhead, Hrows.
  - intros tsa t tsb ->. unfold formatMarkdownTable.
    by rewrite print_each_middle, !append_assoc.
  - intros dsa d dsb ->. split.
    + unfold formatMarkdownTableHeader.
      by rewrite print_each_middle, !append_assoc.
    + intros t. unfold row. by rewrite print_each_middle, !append_assoc.
Qed.

Lemma formatMarkdownTable_deterministic_witness :
  formatMarkdownTable Scenario.maps [Scenario.A; Scenario.B] Scenario.catalog =
  formatMarkdownTable Scenario.maps' [Scenario.A'; Scenario.B'] Scenario.catalog.
Proof.
  apply (formatMarkdownTable_deterministic
           Scenario.maps Scenario.maps' [Scenario.A; Scenario.B]
           [Scenario.A'; Scenario.B'] Scenario.catalog).
  repeat constructor; intros t Ht;
    repeat (apply elem_of_cons in Ht as [->|Ht]); try by vm_compute;
    by apply elem_of_nil in Ht.
Defined.

Lemma newDriverStats_spec h l d h' :
  newDriverStats h l = Ret (d, h') ->
  h' = h ++ [∅; ∅] /\ fixturesUast d = length h /\
  codeUast d = S (length h) /\ language d = Language l /\
  url d = RepositoryURL l.
Proof.
  unfold newDriverStats. destruct (slice_from _ _) as [p|msg]; [|done].
  simpl. rewrite length_app. simpl. intros H. simplify_eq. simpl.
  rewrite <- app_assoc. simpl. split_and!; (done || lia).
Qed.

Lemma appendDrivers_spec langs : forall h ds ds' h',
  appendDrivers h ds langs = Ret (ds', h') ->
  exists new,
    ds' = ds ++ new /\
    h' = h ++ replicate (2 * length langs) ∅ /\
    language <$> new = Language <$> langs /\
    url <$> new = RepositoryURL <$> langs /\
    wired (length h) new.
Proof.
  induction langs as [|l langs IH]; intros h ds ds' h' H; simpl in H.
  - simplify_eq. exists []. rewrite !app_nil_r. by split_and!.
  - destruct (newDriverStats h l) as [[d h1]|msg] eqn:E; [|done]. simpl in H.
    apply newDriverStats_spec in E as (-> & Hf & Hc & Hl & Hu).
    apply IH in H as (new & -> & -> & Hlang & Hurl & Hw).
    exists (d :: new). split_and!.
    + by rewrite <- app_assoc.
    + rewrite <- app_assoc. f_equal.
      replace (2 * length (l :: langs))%nat
        with (S (S (2 * length langs))) by (simpl; lia).
      done.
    + rewrite !fmap_cons. by rewrite Hl, Hlang.
    + rewrite !fmap_cons. by rewrite Hu, Hurl.
    + intros [|k] d' Hk; simpl in Hk; simplify_eq.
      * split; lia.
      * destruct (Hw _ _ Hk) as [-> ->]. rewrite length_app. simpl.
        split; lia.
Qed.

Lemma listDrivers_spec e ds err h :
  listDrivers [] (official e) = Ret ((ds, err), h) ->
  match err with
  | Some x => (official e).2 = Some x
  | None => listed e ds /\ h = replicate (2 * length ds) ∅
  end.
Proof.
  unfold listDrivers, listed. destruct (official e) as [langs [x|]]; simpl.
  - intros H. by simplify_eq.
  - destruct (appendDrivers [] [] langs) as [[ds' h']|msg] eqn:E; [|done].
    simpl. intros H. simplify_eq.
    apply appendDrivers_spec in E as (new & -> & -> & Hl & Hu & Hw).
    simpl in *. split_and!; try done.
    f_equal. apply (f_equal length) in Hl. rewrite !length_fmap in Hl. lia.
Qed.

Lemma analysed_init n : analysed_upto 0 n (replicate (2 * n) ∅).
Proof.
  split; [by rewrite length_replicate|]. intros k Hk.
  rewrite !lookup_replicate_2 by lia. done.
Qed.

Lemma analysed_step i n h d ts :
  analysed_upto i n h -> (i < n)%nat -> codeUast d = (2 * i + 1)%nat ->
  exists h', analyzeCode (analyzeFixtures h d) d ts = Ret h' /\
             analysed_upto (S i) n h'.
Proof.
  intros [Hlen Hh] Hi Hc. unfold analyzeCode, analyzeFixtures, map_assign.
  unfold map_index. rewrite Hc.
  destruct (Hh i Hi) as [_ Hi1]. rewrite Hi1.
  rewrite bool_decide_eq_false_2 by lia. rewrite lookup_empty.
  eexists. split; [done|]. split; [by rewrite length_insert|].
  intros k Hk. destruct (Hh k Hk) as [Hk0 Hk1]. split.
  - rewrite list_lookup_insert_ne by lia. done.
  - destruct (decide (k = i)) as [->|Hne].
    + rewrite list_lookup_insert_eq by lia.
      rewrite bool_decide_eq_true_2 by lia. done.
    + rewrite list_lookup_insert_ne by lia. rewrite Hk1.
      f_equal. repeat case_bool_decide; (done || lia).
Qed.

Lemma run_inv_steps e s : steps e run_entry s -> run_inv e s.
Proof.
  induction 1 as [|t s' s'' Hsteps IH Hstep]; [by simpl|].
  destruct t as [|j]; simpl in Hstep.
  - unfold step_main in Hstep. unfold run_inv in IH |- *.
    destruct (pc s') as [| |i|i| |[err|]|i| |[err|]|msg] eqn:Epc;
      try discriminate Hstep.
    + destruct IH as [Hh Hout]. rewrite Hh in Hstep.
      destruct (listDrivers [] (official e)) as [[[ds [err|]] h]|msg] eqn:E;
        simplify_eq; simpl; try done.
      apply listDrivers_spec in E as [Hl ->].
      split_and!; [done|apply analysed_init|done].
    + case_step Hstep; simpl; done.
    + case_step Hstep; simpl; done.
    + case_step Hstep; simpl; done.
    + case_step Hstep; simpl; done.
    + simplify_eq. simpl. by destruct_and?.
    + simplify_eq. simpl. destruct IH as (Hl & Ha & Hout).
      split_and!; try done. lia.
    + destruct IH as (Hl & Hle & Ha & Hty & Hout).
      destruct (drivers s' !! i) as [driver|] eqn:Hd.
      * pose proof (lookup_lt_Some _ _ _ Hd) as Hlt.
        destruct Hl as (Hoff & Hlang & Hurl & Hw).
        destruct (Hw _ _ Hd) as [_ Hc].
        destruct (analysed_step i _ (heap s') driver (uastTypes s') Ha Hlt)
          as (h' & Hh' & Ha'); [lia|].
        rewrite Hh' in Hstep. simplify_eq. simpl.
        split_and!; first [done|lia].
      * apply lookup_ge_None in Hd. simplify_eq. simpl.
        replace (length (drivers s')) with i at 1 by lia. done.
    + destruct IH as (Hl & Ha & Hty & Hout). simplify_eq. simpl.
      split_and!; try done. by rewrite Hout, Hty.
  - destruct (step_async_frame _ _ _ _ Hstep) as (Hds & Hh & Hout & Hty).
    assert (pc s'' = pc s') as Epc.
    { eapply step_async_pc; [|exact Hstep].
      eapply inv_steps; [|exact Hsteps]. apply inv_entry. constructor. }
    unfold run_inv in *. by rewrite Epc, Hds, Hh, Hout, Hty.
Qed.

(** ** The whole run: every cell is 0/0 *)

Lemma uast_names :
  Forall (fun t => exists n, name t = "uast." +:+ n /\ name t <> "Identifier")
         findAllUastTypes.
Proof.
  let l := eval vm_compute in findAllUastTypes in
  change findAllUastTypes with l.
  repeat constructor; (eexists; split; [reflexivity|discriminate]).
Qed.

Lemma analyzeCode_spec h d ts h' :
  analyzeCode h d ts = Ret h' ->
  map_index h' (codeUast d) "Identifier" =
    wrap64 (map_index h (codeUast d) "Identifier" + 1) /\
  forall m k, k <> "Identifier" -> map_index h' m k = map_index h m k.
Proof.
  unfold analyzeCode, map_assign.
  destruct (h !! codeUast d) as [tbl|] eqn:Htbl; [|done].
  intros H. simplify_eq. split.
  - unfold map_index at 1.
    rewrite list_lookup_insert_eq by (by eapply lookup_lt_Some).
    by rewrite lookup_insert_eq.
  - intros m k Hk. unfold map_index.
    destruct (decide (m = codeUast d)) as [->|Hne].
    + rewrite list_lookup_insert_eq by (by eapply lookup_lt_Some).
      rewrite Htbl. by rewrite lookup_insert_ne.
    + by rewrite list_lookup_insert_ne.
Qed.

Lemma analysed_maps n h ds j d :
  analysed_upto n n h -> wired 0 ds -> length ds = n ->
  ds !! j = Some d ->
  h !! fixturesUast d = Some ∅ /\
  h !! codeUast d = Some {["Identifier" := 1]}.
Proof.
  intros [_ Hh] Hw Hlen Hd.
  pose proof (lookup_lt_Some _ _ _ Hd) as Hlt.
  destruct (Hw _ _ Hd) as [-> ->]. simpl.
  destruct (Hh j) as [H0 H1]; [lia|].
  rewrite bool_decide_eq_true_2 in H1 by lia. done.
Qed.

Lemma analysed_cells n h ds :
  analysed_upto n n h -> wired 0 ds -> length ds = n ->
  forall t d, t ∈ findAllUastTypes -> d ∈ ds -> cell h t d = " 0/0 |".
Proof.
  intros Ha Hw Hlen t d Ht Hd.
  apply list_elem_of_lookup in Hd as [j Hj].
  destruct (analysed_maps _ _ _ _ _ Ha Hw Hlen Hj) as [Hf Hc].
  pose proof uast_names as Hn. rewrite Forall_forall in Hn.
  destruct (Hn t Ht) as (x & _ & Hne).
  unfold cell. rewrite (map_index_lookup _ _ _ _ Hf).
  rewrite (map_index_lookup _ _ _ _ Hc).
  rewrite lookup_empty, lookup_singleton_ne by done. done.
Qed.

Lemma run_exit e s :
  steps e run_entry s -> pc s = Exit None ->
  listed e (drivers s) /\
  analysed_upto (length (drivers s)) (length (drivers s)) (heap s) /\
  stdout s = formatMarkdownTable (heap s) (drivers s) findAllUastTypes /\
  stdout s =
    header +:+ formatMarkdownTableHeader (drivers s)
    +:+ print_each (zero_row (drivers s)) findAllUastTypes +:+ footer.
Proof.
  intros Hsteps Epc. pose proof (run_inv_steps _ _ Hsteps) as Hr.
  unfold run_inv in Hr. rewrite Epc in Hr. destruct Hr as (Hl & Ha & Hout).
  split_and!; try done. rewrite Hout. unfold formatMarkdownTable.
  do 2 f_equal.
  rewrite (print_each_ext (row (heap s) (drivers s)) (zero_row (drivers s)));
    [done|].
  intros t Ht. unfold row, zero_row. do 3 f_equal.
  rewrite (print_each_ext (cell (heap s) t) (fun _ => " 0/0 |")); [done|].
  intros d Hd. destruct Hl as (_ & _ & _ & Hw).
  by eapply analysed_cells.
Qed.

(** ** The whole run: theorems *)

(** C9: every name of [findAllUastTypes] is [uast.] followed by the name
    of the type, and none is [Identifier]; [analyzeFixtures] changes
    nothing and [analyzeCode] adds one to the count under the key
    [Identifier] of the code map and changes no other count.  So, when
    [run] has returned [nil], every driver's code map has the count 1
    under [Identifier], every cell of every driver is [0/0], and the text
    written is the report whose cells are all [0/0]. *)
Theorem identifier_count_never_reported e s :
  steps e run_entry s ->
  pc s = Exit None ->
  (forall t, t ∈ findAllUastTypes ->
     exists n, name t = "uast." +:+ n /\ name t <> "Identifier") /\
  (forall h d ts, analyzeFixtures h d = h /\
     forall h', analyzeCode h d ts = Ret h' ->
       map_index h' (codeUast d) "Identifier" =
         wrap64 (map_index h (codeUast d) "Identifier" + 1) /\
       forall m k, k <> "Identifier" -> map_index h' m k = map_index h m k) /\
  (forall d, d ∈ drivers s ->
     map_index (heap s) (codeUast d) "Identifier" = 1 /\
     forall t, t ∈ findAllUastTypes -> cell (heap s) t d = " 0/0 |") /\
  stdout s =
    header +:+ formatMarkdownTableHeader (drivers s)
    +:+ print_each (zero_row (drivers s)) findAllUastTypes +:+ footer.
Proof.
  intros Hsteps Epc.
  destruct (run_exit e s Hsteps Epc) as (Hl & Ha & _ & Hout).
  destruct Hl as (_ & _ & _ & Hw).
  split_and!.
  - intros t Ht. pose proof uast_names as Hn. rewrite Forall_forall in Hn.
    by apply Hn.
  - intros h d ts. split; [done|]. apply analyzeCode_spec.
  - intros d Hd. split.
    + apply list_elem_of_lookup in Hd as [j Hj].
      destruct (analysed_maps _ _ _ _ _ Ha Hw eq_refl Hj) as [_ Hc].
      by rewrite (map_index_lookup _ _ _ _ Hc).
    + intros t Ht. by eapply analysed_cells.
  - done.
Qed.

Lemma identifier_count_never_reported_witness :
  stdout Sample.finished =
    header +:+ formatMarkdownTableHeader (drivers Sample.finished)
    +:+ print_each (zero_row (drivers Sample.finished)) findAllUastTypes
    +:+ footer.
Proof.
  refine (proj2 (proj2 (proj2 (identifier_count_never_reported
                                 Sample.env Sample.finished _ _)))).
  - apply (exec_steps _ Sample.sched_run). by vm_compute.
  - by vm_compute.
Defined.

(** C3, as the program has it: [run] calls [analyzeFixtures] and
    [analyzeCode] for every driver, whatever its goroutine returned.
    When [run] has returned [nil], the drivers are those that were
    discovered, in that order; each one's goroutine has finished with the
    result, error or [nil], of its call of [maybeCloneOrPull]; each one has
    an empty fixture map and a code map that holds exactly the count 1
    under [Identifier]; and each one has its column in the report that
    was written, with the cell [0/0] for every entry of the catalog. *)
Theorem extraction_runs_for_every_driver e s :
  steps e run_entry s ->
  pc s = Exit None ->
  language <$> drivers s = Language <$> (official e).1 /\
  (forall j d, drivers s !! j = Some d ->
     goroutines s !! j = Some (Exited (maybeCloneOrPull (host_of e j) d)) /\
     heap s !! fixturesUast d = Some ∅ /\
     heap s !! codeUast d = Some {["Identifier" := 1]} /\
     forall t, t ∈ findAllUastTypes -> cell (heap s) t d = " 0/0 |") /\
  stdout s = formatMarkdownTable (heap s) (drivers s) findAllUastTypes /\
  stdout s =
    header +:+ formatMarkdownTableHeader (drivers s)
    +:+ print_each (zero_row (drivers s)) findAllUastTypes +:+ footer.
Proof.
  intros Hsteps Epc.
  destruct (run_exit e s Hsteps Epc) as (Hl & Ha & Hout & Hzero).
  destruct Hl as (_ & Hlang & _ & Hw).
  assert (reachable e s) as Hreach by (eexists; eauto using entry).
  pose proof (inv_reachable _ _ Hreach) as Hinv.
  pose proof (inv_pc _ _ Hinv) as Hp. unfold pc_inv in Hp.
  rewrite Epc in Hp. destruct Hp as (Hlen & Hu & _).
  split_and!; try done.
  intros j d Hd.
  destruct (analysed_maps _ _ _ _ _ Ha Hw eq_refl Hd) as [Hf Hc].
  split_and!; try done; [by apply exited_results|].
  intros t Ht. eapply analysed_cells; eauto.
  by eapply list_elem_of_lookup_2.
Qed.

Lemma extraction_runs_for_every_driver_witness :
  language <$> drivers Sample.finished = Language <$> Sample.langs.
Proof.
  refine (proj1 (extraction_runs_for_every_driver
                   Sample.env Sample.finished _ _)).
  - apply (exec_steps _ Sample.sched_run). by vm_compute.
  - by vm_compute.
Defined.

(** C3, as stated, fails: in the run [Sample.sched_run] the clone of the
    second driver fails, its goroutine ends with the error of [git], and
    still the analysis has written into its code map: at the end of the
    run that map is not empty, it holds the count 1 under [Identifier]. *)
Lemma failed_sync_still_analysed :
  exec Sample.env Sample.sched_run run_entry = Some Sample.finished /\
  pc Sample.finished = Exit None /\
  goroutines Sample.finished !! 1%nat = Some (Exited (Some Sample.exit_128)) /\
  exists d,
    drivers Sample.finished !! 1%nat = Some d /\
    language d = "python" /\
    heap Sample.finished !! codeUast d = Some {["Identifier" := 1]} /\
    map_index (heap Sample.finished) (codeUast d) "Identifier" = 1.
Proof.
  split_and!; try by vm_compute.
  eexists. split_and!; by vm_compute.
Qed.


(** ** The wait group and the channel: more properties *)

(** X1: the counter of the wait group is never negative and never below
    the number of goroutines that have not run their [wg.Done()]; while
    the main goroutine is in [wg.Wait()] it is exactly that number.  So a
    deferred [wg.Done()] never panics on a negative counter: it can
    always step, lowers the counter by one and ends its goroutine, and
    the main goroutine stays where it is. *)
Theorem waitgroup_counter e s :
  reachable e s ->
  0 <= wg s /\
  Z.of_nat (unfinished s) <= wg s /\
  (pc s = AllWait -> wg s = Z.of_nat (unfinished s)) /\
  (forall j r, goroutines s !! j = Some (AtDone r) ->
     exists s', step e (Async j) s = Some s' /\
                wg s' = wg s - 1 /\
                goroutines s' !! j = Some (Exited r) /\
                pc s' = pc s).
Proof.
  intros Hreach. pose proof (inv_reachable _ _ Hreach) as Hinv.
  destruct (inv_wg _ _ Hinv) as [H0 Hu].
  split_and!; try done.
  - intros Epc. pose proof (inv_pc _ _ Hinv) as Hp. unfold pc_inv in Hp.
    rewrite Epc in Hp. by destruct Hp.
  - intros j r Hj. simpl. unfold step_async.
    rewrite (pending_live e s j (AtDone r)), Hj by (simpl; auto; lia).
    pose proof (sum_list_with_in _ pending _
                  (list_elem_of_lookup_2 _ _ _ Hj)) as Hin.
    unfold unfinished in Hu. simpl in Hin.
    rewrite bool_decide_eq_false_2 by lia.
    eexists. split; [done|]. simpl. split_and!; try done.
    apply list_lookup_insert_eq. by eapply lookup_lt_Some.
Qed.

Lemma waitgroup_counter_witness :
  0 <= wg Sample.busy /\ Z.of_nat (unfinished Sample.busy) <= wg Sample.busy.
Proof.
  pose proof (waitgroup_counter Sample.env Sample.busy busy_reachable)
    as (H0 & H1 & _).
  exact (conj H0 H1).
Defined.

(** X2: a goroutine at its send [concurent <- 1] can take that step
    exactly when fewer than 3 goroutines hold a slot; with 3 holders it
    is blocked.  When it steps it becomes a holder and nothing else
    changes but the buffer. *)
Theorem send_blocks_iff_full e s j :
  reachable e s ->
  goroutines s !! j = Some AtSend ->
  ((holders s < 3)%nat ->
   exists s', step e (Async j) s = Some s' /\
              goroutines s' !! j = Some AtCall /\
              holders s' = S (holders s) /\
              pc s' = pc s /\ wg s' = wg s) /\
  (holders s = 3%nat -> step e (Async j) s = None).
Proof.
  intros Hreach Hj. pose proof (inv_reachable _ _ Hreach) as Hinv.
  pose proof (inv_slots _ _ Hinv) as Hs.
  simpl. unfold step_async.
  rewrite (pending_live e s j AtSend), Hj by (simpl; auto; lia).
  unfold concurent_cap. split.
  - intros Hlt. rewrite bool_decide_eq_true_2 by lia.
    eexists. split; [done|]. simpl. split_and!; try done.
    + apply list_lookup_insert_eq. by eapply lookup_lt_Some.
    + unfold holders. simpl.
      pose proof (sum_list_with_insert holds_slot _ j AtSend AtCall Hj) as H.
      simpl in H. lia.
  - intros Hfull. rewrite bool_decide_eq_false_2 by lia. done.
Qed.

Lemma send_blocks_iff_full_witness :
  step Sample.env (Async 3) Sample.busy = None.
Proof.
  refine (proj2 (send_blocks_iff_full Sample.env Sample.busy 3
                   busy_reachable _) _); by vm_compute.
Defined.

(** ** listDrivers: when it succeeds and what it builds *)

Lemma last_slash_split s :
  slash_free s = false ->
  exists a b, s = a +:+ "/" +:+ b /\ slash_free b = true.
Proof.
  induction s as [|c s IH]; cbn [slash_free]; [done|].
  destruct (slash_free s) eqn:Hs.
  - destruct (Ascii.ascii_dec "/"%char c) as [<-|_]; [|done].
    intros _. by exists "", s.
  - intros _. destruct IH as (a & b & -> & Hb); [done|].
    by exists (String c a), b.
Qed.

Lemma slice_at_last_slash s a b :
  s = a +:+ "/" +:+ b -> slash_free b = true ->
  slice_from s (strings_LastIndex s "/") = Ret ("/" +:+ b).
Proof.
  intros -> Hb. unfold strings_LastIndex.
  rewrite last_index_last_slash by done. unfold slice_from.
  assert ((0 + len a <? 0) || (len (a +:+ "/" +:+ b) <? 0 + len a) = false)
    as ->.
  { unfold len. rewrite length_append.
    apply orb_false_iff. split; apply Z.ltb_ge; lia. }
  unfold len. by rewrite Z.add_0_l, Nat2Z.id, string_drop_app.
Qed.

Lemma slice_slash_free s :
  slash_free s = true ->
  slice_from s (strings_LastIndex s "/") =
  Panic "runtime error: slice bounds out of range".
Proof.
  intros H. unfold strings_LastIndex. by rewrite last_index_slash_free.
Qed.

Lemma newDriverStats_path h l d h' :
  newDriverStats h l = Ret (d, h') ->
  exists a b,
    RepositoryURL l = a +:+ "/" +:+ b /\ slash_free b = true /\
    path d = "/" +:+ b /\ url d = a +:+ path d.
Proof.
  unfold newDriverStats.
  destruct (slash_free (RepositoryURL l)) eqn:Hfree.
  - by rewrite slice_slash_free.
  - destruct (last_slash_split _ Hfree) as (a & b & Hurl & Hb).
    rewrite (slice_at_last_slash _ a b Hurl Hb). simpl.
    intros H. simplify_eq. simpl. by exists a, b.
Qed.

Lemma newDriverStats_panic h l msg :
  newDriverStats h l = Panic msg ->
  slash_free (RepositoryURL l) = true /\
  msg = "runtime error: slice bounds out of range".
Proof.
  unfold newDriverStats.
  destruct (slash_free (RepositoryURL l)) eqn:Hfree.
  - rewrite slice_slash_free by done. simpl. by intros [= <-].
  - destruct (last_slash_split _ Hfree) as (a & b & Hurl & Hb).
    by rewrite (slice_at_last_slash _ a b Hurl Hb).
Qed.

Lemma appendDrivers_panic_inv langs : forall h ds msg,
  appendDrivers h ds langs = Panic msg ->
  msg = "runtime error: slice bounds out of range" /\
  exists l, l ∈ langs /\ slash_free (RepositoryURL l) = true.
Proof.
  induction langs as [|l langs IH]; intros h ds msg H; simpl in H; [done|].
  destruct (newDriverStats h l) as [[d h1]|m] eqn:E; simpl in H.
  - destruct (IH _ _ _ H) as (-> & l' & Hin & Hfree).
    split; [done|]. exists l'. split; [by right|done].
  - simplify_eq. destruct (newDriverStats_panic _ _ _ E) as [Hfree ->].
    split; [done|]. exists l. split; [by left|done].
Qed.

Lemma appendDrivers_total langs : forall h ds,
  Forall (fun l => slash_free (RepositoryURL l) = false) langs ->
  exists ds' h', appendDrivers h ds langs = Ret (ds', h').
Proof.
  induction langs as [|l langs IH]; intros h ds Hall; simpl; [eauto|].
  apply Forall_cons in Hall as [Hl Hall].
  destruct (newDriverStats h l) as [[d h1]|m] eqn:E; simpl.
  - by apply IH.
  - apply newDriverStats_panic in E as [E _]. congruence.
Qed.

Lemma appendDrivers_Forall (P : driverStats -> Prop) langs : forall h ds ds' h',
  (forall h l d h', newDriverStats h l = Ret (d, h') -> P d) ->
  appendDrivers h ds langs = Ret (ds', h') ->
  Forall P ds -> Forall P ds'.
Proof.
  induction langs as [|l langs IH]; intros h ds ds' h' HP H Hds; simpl in H.
  - by simplify_eq.
  - destruct (newDriverStats h l) as [[d h1]|m] eqn:E; [|done]. simpl in H.
    eapply IH; [done|exact H|]. apply Forall_app. split; [done|].
    apply Forall_singleton. eauto.
Qed.

Lemma has_slash_spec s :
  slash_free s = false <-> exists a b, s = a +:+ "/" +:+ b.
Proof.
  split.
  - intros H. destruct (last_slash_split s H) as (a & b & -> & _). eauto.
  - intros (a & b & ->). destruct (slash_free _) eqn:E; [|done].
    pose proof (proj1 (slash_free_spec _) E a b) as Hne. by destruct Hne.
Qed.

(** X3: [listDrivers], when [discovery.OfficialDrivers] gave no error,
    returns without panic exactly when every repository URL contains a
    slash. *)
Theorem listDrivers_succeeds_iff h langs :
  Forall (fun l => exists a b, RepositoryURL l = a +:+ "/" +:+ b) langs <->
  exists ds h', listDrivers h (langs, None) = Ret ((ds, None), h').
Proof.
  unfold listDrivers. split.
  - intros Hall.
    destruct (appendDrivers_total langs h []) as (ds & h' & ->); [|simpl; eauto].
    eapply Forall_impl; [exact Hall|]. intros l Hl. by apply has_slash_spec.
  - intros (ds & h' & H).
    destruct (appendDrivers h [] langs) as [[ds' h'']|msg] eqn:E; [|done].
    apply Forall_forall. intros l Hl. apply has_slash_spec.
    destruct (slash_free (RepositoryURL l)) eqn:Hfree; [|done]. exfalso.
    rewrite (appendDrivers_panics h l langs []
               "runtime error: slice bounds out of range") in E; try done.
    + unfold newDriverStats. by rewrite slice_slash_free.
    + intros h0. unfold newDriverStats. by rewrite slice_slash_free.
    + intros l' h0 m Hm. by destruct (newDriverStats_panic _ _ _ Hm).
Qed.

(** X4: what a successful [listDrivers] returns: no error; one record
    per discovered driver, in the same order, with its language and URL;
    each path is the end of its URL from the last slash on; the store has
    grown by two empty maps per driver and by nothing else; every record
    got two fresh maps, and no map is shared, neither between the two
    fields of a record nor between two records. *)
Theorem listDrivers_result h langs ds err h' :
  listDrivers h (langs, None) = Ret ((ds, err), h') ->
  err = None /\
  language <$> ds = Language <$> langs /\
  url <$> ds = RepositoryURL <$> langs /\
  Forall (fun d => exists a b,
            url d = a +:+ path d /\ path d = "/" +:+ b /\
            forall x y, b <> x +:+ "/" +:+ y) ds /\
  h' = h ++ replicate (2 * length langs) ∅ /\
  (forall j d, ds !! j = Some d ->
     (length h <= fixturesUast d < length h')%nat /\
     (length h <= codeUast d < length h')%nat /\
     forall k d', ds !! k = Some d' ->
       fixturesUast d <> codeUast d' /\
       (j <> k -> fixturesUast d <> fixturesUast d' /\
                  codeUast d <> codeUast d')).
Proof.
  unfold listDrivers.
  destruct (appendDrivers h [] langs) as [[ds0 h0]|msg] eqn:E; [|done].
  simpl. intros H. simplify_eq.
  assert (Forall (fun d => exists a b,
                      url d = a +:+ path d /\ path d = "/" +:+ b /\
                      forall x y, b <> x +:+ "/" +:+ y) ds) as Hpath.
  { eapply appendDrivers_Forall; [|exact E|constructor].
    intros h1 l d h2 Hnew.
    destruct (newDriverStats_path _ _ _ _ Hnew) as (a & b & _ & Hb & Hp & Hd).
    exists a, b. split_and!; try done. by apply slash_free_spec. }
  apply appendDrivers_spec in E as (new & -> & -> & Hl & Hu & Hw).
  simpl in *. split_and!; try done.
  - intros j d Hj. destruct (Hw _ _ Hj) as [Hf Hc].
    pose proof (lookup_lt_Some _ _ _ Hj) as Hlt.
    apply (f_equal length) in Hl. rewrite !length_fmap in Hl.
    rewrite length_app, length_replicate.
    split_and!; try lia.
    intros k d' Hk. destruct (Hw _ _ Hk) as [Hf' Hc']. lia.
Qed.

Lemma listDrivers_result_witness :
  language <$> drivers Sample.busy = Language <$> Sample.langs.
Proof.
  refine (proj1 (proj2 (listDrivers_result [] Sample.langs
                          (drivers Sample.busy) None (heap Sample.busy) _))).
  by vm_compute.
Defined.

(** ** The whole run: how it can end *)

Lemma listDrivers_error_inv h off ds x h' :
  listDrivers h off = Ret ((ds, Some x), h') -> off.2 = Some x.
Proof.
  unfold listDrivers. destruct off as [langs [y|]]; simpl.
  - by intros [= _ -> _].
  - by destruct (appendDrivers h [] langs) as [[ds' h'']|msg].
Qed.

Lemma listDrivers_ok_inv h off ds h' :
  listDrivers h off = Ret ((ds, None), h') -> off.2 = None.
Proof. unfold listDrivers. by destruct off as [langs [y|]]. Qed.

Lemma exit_inv_steps e s : steps e run_entry s -> exit_inv e s.
Proof.
  induction 1 as [|t s' s'' Hsteps IH Hstep]; [by simpl|].
  assert (reachable e s') as Hreach by (eexists; eauto using entry).
  pose proof (inv_reachable _ _ Hreach) as Hinv.
  pose proof (mkdir_inv_reachable _ _ Hreach) as Hmk.
  pose proof (run_inv_steps _ _ Hsteps) as Hrun.
  destruct t as [|j]; simpl in Hstep.
  - unfold step_main in Hstep.
    unfold exit_inv in IH |- *. unfold mkdir_inv in Hmk.
    unfold run_inv in Hrun.
    pose proof (inv_pc _ _ Hinv) as Hp. unfold pc_inv in Hp.
    destruct (pc s') as [| |i|i| |[err|]|i| |[err|]|msg] eqn:Epc;
      try discriminate Hstep.
    + destruct Hrun as [Hh _]. destruct Hp as [Hgs _]. rewrite Hh in Hstep.
      destruct (listDrivers [] (official e)) as [[[ds [x|]] h]|msg] eqn:E;
        simplify_eq; simpl.
      * split; [done|]. left. exists x. split; [|done].
        by eapply listDrivers_error_inv.
      * eauto.
      * done.
    + case_step Hstep; simpl; done.
    + case_step Hstep; simpl; done.
    + case_step Hstep; simpl; done.
    + case_step Hstep; simpl; done.
    + simplify_eq. simpl. split; [done|]. right. by exists err.
    + simplify_eq. simpl. split; [done|]. by symmetry.
    + destruct Hrun as (Hl & Hle & Ha & Hty & Hout).
      destruct (drivers s' !! i) as [driver|] eqn:Hd.
      * pose proof (lookup_lt_Some _ _ _ Hd) as Hlt.
        destruct Hl as (Hoff & Hlang & Hurl & Hw).
        destruct (Hw _ _ Hd) as [_ Hc].
        destruct (analysed_step i _ (heap s') driver (uastTypes s') Ha Hlt)
          as (h' & Hh' & Ha'); [lia|].
        rewrite Hh' in Hstep. simplify_eq. simpl. done.
      * simplify_eq. simpl. done.
    + simplify_eq. simpl. done.
  - destruct (step_async_frame _ _ _ _ Hstep) as (Hds & _).
    pose proof (step_async_pc _ _ _ _ Hinv Hstep) as Epc.
    unfold exit_inv in *. rewrite Epc, Hds.
    destruct (pc s') as [| |i|i| |[err|]|i| |[err|]|msg] eqn:Epc';
      try done;
      unfold step_async in Hstep; rewrite Epc' in Hstep; discriminate.
Qed.

Lemma terminated_inv p :
  terminated p = true -> (exists err, p = Exit err) \/ (exists msg, p = Panicked msg).
Proof. destruct p; try discriminate; eauto. Qed.

Lemma run_stdout_empty e s :
  steps e run_entry s -> pc s <> Exit None -> stdout s = "".
Proof.
  intros Hsteps Hne. pose proof (run_inv_steps _ _ Hsteps) as Hr.
  unfold run_inv in Hr.
  destruct (pc s) as [| |i|i| |[err|]|i| |[err|]|msg]; by destruct_and?.
Qed.

(** X5: when [run] returns an error, nothing was written to standard
    output and no goroutine was started, and the error is either the
    error of [discovery.OfficialDrivers] behind the text
    [failed to list drivers: ], or, the listing having succeeded, the
    error of [os.MkdirAll] behind [failed to pull driver repos: ].  A
    failed clone or pull never makes [run] fail. *)
Theorem run_error_exit e s err :
  steps e run_entry s ->
  pc s = Exit (Some err) ->
  stdout s = "" /\ goroutines s = [] /\
  ((exists x, (official e).2 = Some x /\
              err = fmt_Errorf_s "failed to list drivers: " x) \/
   (exists x, (official e).2 = None /\ os_MkdirAll e = Some x /\
              err = fmt_Errorf_s "failed to pull driver repos: " x)).
Proof.
  intros Hsteps Epc. pose proof (exit_inv_steps _ _ Hsteps) as He.
  unfold exit_inv in He. rewrite Epc in He. destruct He as [Hgs Hor].
  split_and!; [|done|].
  - apply (run_stdout_empty e); [done|]. by rewrite Epc.
  - destruct Hor as [(x & Hx & ->)|(x & [h0 Hl] & Hmk & ->)]; [eauto|].
    right. exists x. split_and!; try done. by eapply listDrivers_ok_inv.
Qed.

Lemma run_error_exit_witness :
  stdout (Cases.after Cases.env_read_only [Main; Main; Main]) = "" /\
  goroutines (Cases.after Cases.env_read_only [Main; Main; Main]) = [].
Proof.
  pose proof (run_error_exit Cases.env_read_only
                (Cases.after Cases.env_read_only [Main; Main; Main])
                (fmt_Errorf_s "failed to pull driver repos: " Cases.read_only))
    as H.
  destruct H as (H1 & H2 & _).
  - apply (exec_steps _ [Main; Main; Main]). by vm_compute.
  - by vm_compute.
  - exact (conj H1 H2).
Defined.

(** X6: the only panic of a run is the one of the slice expression in
    [listDrivers]: the discovery gave no error and some repository URL
    has no slash.  In particular the analysis loop never assigns into a
    nil map and [wg.Done()] never panics.  Nothing was written and no
    goroutine was started. *)
Theorem run_panics_only_in_listDrivers e s msg :
  steps e run_entry s ->
  pc s = Panicked msg ->
  msg = "runtime error: slice bounds out of range" /\
  (official e).2 = None /\
  (exists l, l ∈ (official e).1 /\
             forall a b, RepositoryURL l <> a +:+ "/" +:+ b) /\
  stdout s = "" /\ goroutines s = [].
Proof.
  intros Hsteps Epc. pose proof (exit_inv_steps _ _ Hsteps) as He.
  unfold exit_inv in He. rewrite Epc in He. destruct He as [Hgs Hl].
  assert (stdout s = "") as Hout.
  { apply (run_stdout_empty e); [done|]. by rewrite Epc. }
  unfold listDrivers in Hl. destruct (official e) as [langs [x|]]; [done|].
  destruct (appendDrivers [] [] langs) as [[ds h]|m] eqn:E; [done|].
  simpl in Hl. simplify_eq.
  destruct (appendDrivers_panic_inv _ _ _ _ E) as (-> & l & Hin & Hfree).
  split_and!; try done. exists l. split; [done|]. by apply slash_free_spec.
Qed.

Lemma run_panics_only_in_listDrivers_witness :
  exists l, l ∈ (official Cases.env_bad_url).1 /\
            forall a b, RepositoryURL l <> a +:+ "/" +:+ b.
Proof.
  pose proof (run_panics_only_in_listDrivers Cases.env_bad_url
                (Cases.after Cases.env_bad_url [Main])
                "runtime error: slice bounds out of range") as H.
  destruct H as (_ & _ & H & _).
  - apply (exec_steps _ [Main]). by vm_compute.
  - by vm_compute.
  - exact H.
Defined.

(** X7: when the discovery gives no error, every repository URL contains
    a slash and [os.MkdirAll] succeeds, [run] returns [nil] and has
    written the report, whatever the clones and pulls did and whatever
    the schedule: some schedule takes the run to its end, and every run
    that has ended has returned [nil] with the report on standard
    output. *)
Theorem run_prints_report e :
  (official e).2 = None ->
  Forall (fun l => exists a b, RepositoryURL l = a +:+ "/" +:+ b)
         (official e).1 ->
  os_MkdirAll e = None ->
  (exists sched s, exec e sched run_entry = Some s /\ pc s = Exit None) /\
  (forall s, steps e run_entry s -> terminated (pc s) = true ->
     pc s = Exit None /\
     stdout s = formatMarkdownTable (heap s) (drivers s) findAllUastTypes).
Proof.
  intros Hoff Hurls Hmk.
  assert (forall s, steps e run_entry s -> terminated (pc s) = true ->
            pc s = Exit None /\
            stdout s = formatMarkdownTable (heap s) (drivers s)
                                           findAllUastTypes) as Hall.
  { intros s Hsteps Hterm. pose proof (exit_inv_steps _ _ Hsteps) as He.
    unfold exit_inv in He.
    assert (pc s = Exit None) as Epc.
    { destruct (terminated_inv _ Hterm) as [[[err|] Epc]|[msg Epc]];
        rewrite Epc in He; [exfalso|done|exfalso].
      - destruct He as [_ [(x & Hx & _)|(x & _ & Hx & _)]]; congruence.
      - destruct He as [_ Hl]. unfold listDrivers in Hl.
        destruct (official e) as [langs [x|]]; [done|]. simpl in *.
        destruct (appendDrivers [] [] langs) as [[ds h]|m] eqn:E; [done|].
        destruct (appendDrivers_panic_inv _ _ _ _ E) as (_ & l & Hin & Hfree).
        rewrite Forall_forall in Hurls. apply Hurls in Hin.
        apply has_slash_spec in Hin. congruence. }
    split; [done|]. by destruct (run_exit e s Hsteps Epc) as (_ & _ & ? & _). }
  split; [|done].
  destruct (run_terminates e) as (sched & s & Hex & Hterm).
  exists sched, s. split; [done|].
  by destruct (Hall s (exec_steps _ _ _ _ Hex) Hterm).
Qed.

Lemma run_prints_report_witness :
  exists sched s,
    exec Cases.env_all_offline sched run_entry = Some s /\ pc s = Exit None.
Proof.
  refine (proj1 (run_prints_report Cases.env_all_offline eq_refl _ eq_refl)).
  apply (Forall_impl (fun l => slash_free (RepositoryURL l) = false)).
  - by repeat constructor.
  - intros l Hl. by apply has_slash_spec.
Defined.

(** X8: what a run leaves to see, the value [run] returns (or its panic)
    and the text on standard output, depends only on what
    [discovery.OfficialDrivers] and [os.MkdirAll] answered: two runs that
    agree on these end alike, whatever their schedules and whatever the
    hosts answered to [os.Stat] and [git]. *)
Theorem run_independent_of_hosts_and_schedule e1 e2 s1 s2 :
  official e1 = official e2 ->
  os_MkdirAll e1 = os_MkdirAll e2 ->
  steps e1 run_entry s1 -> steps e2 run_entry s2 ->
  terminated (pc s1) = true -> terminated (pc s2) = true ->
  pc s1 = pc s2 /\ stdout s1 = stdout s2.
Proof.
  intros Hoff Hmk Hs1 Hs2 Ht1 Ht2.
  pose proof (exit_inv_steps _ _ Hs1) as He1.
  pose proof (exit_inv_steps _ _ Hs2) as He2.
  unfold exit_inv in He1, He2. rewrite <- Hoff, <- Hmk in He2.
  assert (pc s1 = pc s2) as Epc.
  { destruct (terminated_inv _ Ht1) as [[[err1|] E1]|[msg1 E1]];
      destruct (terminated_inv _ Ht2) as [[[err2|] E2]|[msg2 E2]];
      rewrite E1 in He1; rewrite E2 in He2; rewrite E1, E2.
    - destruct He1 as [_ [(x & Hx & ->)|(x & [h1 Hl1] & Hx & ->)]];
        destruct He2 as [_ [(y & Hy & ->)|(y & [h2 Hl2] & Hy & ->)]].
      + congruence.
      + apply listDrivers_ok_inv in Hl2. congruence.
      + apply listDrivers_ok_inv in Hl1. congruence.
      + congruence.
    - destruct He1 as [_ [(x & Hx & _)|(x & _ & Hx & _)]];
        destruct He2 as [[h2 Hl2] Hm2]; [|congruence].
      apply listDrivers_ok_inv in Hl2. congruence.
    - destruct He1 as [_ [(x & Hx & _)|(x & [h1 Hl1] & _)]];
        destruct He2 as [_ Hl2]; [|congruence].
      unfold listDrivers in Hl2. destruct (official e1) as [langs [y|]];
        [done|discriminate Hx].
    - destruct He2 as [_ [(x & Hx & _)|(x & _ & Hx & _)]];
        destruct He1 as [[h1 Hl1] Hm1]; [|congruence].
      apply listDrivers_ok_inv in Hl1. congruence.
    - done.
    - destruct He1 as [[h1 Hl1] _]. destruct He2 as [_ Hl2]. congruence.
    - destruct He2 as [_ [(x & Hx & _)|(x & [h2 Hl2] & _)]];
        destruct He1 as [_ Hl1]; [|congruence].
      unfold listDrivers in Hl1. destruct (official e1) as [langs [y|]];
        [done|discriminate Hx].
    - destruct He2 as [[h2 Hl2] _]. destruct He1 as [_ Hl1]. congruence.
    - destruct He1 as [_ Hl1]. destruct He2 as [_ Hl2]. congruence. }
  split; [done|].
  assert (pc s1 = Exit None \/ pc s1 <> Exit None) as [E1|Hne].
  { destruct (pc s1) as [| |i|i| |r|i| |[err|]|msg]; (by left) || (by right). }
  - assert (pc s2 = Exit None) as E2 by congruence.
    rewrite E1 in He1. rewrite E2 in He2.
    destruct He1 as [[h1 Hl1] _]. destruct He2 as [[h2 Hl2] _].
    assert (drivers s1 = drivers s2) as Hds by congruence.
    destruct (run_exit e1 s1 Hs1 E1) as (_ & _ & _ & ->).
    destruct (run_exit e2 s2 Hs2 E2) as (_ & _ & _ & ->).
    by rewrite Hds.
  - rewrite (run_stdout_empty e1 s1), (run_stdout_empty e2 s2);
      try done. congruence.
Qed.

Lemma run_independent_of_hosts_and_schedule_witness :
  pc Sample.finished = pc (Cases.after Cases.env_all_offline Cases.sched_in_turn) /\
  stdout Sample.finished =
  stdout (Cases.after Cases.env_all_offline Cases.sched_in_turn).
Proof.
  apply (run_independent_of_hosts_and_schedule
           Sample.env Cases.env_all_offline); try reflexivity.
  - apply (exec_steps _ Sample.sched_run). by vm_compute.
  - apply (exec_steps _ Cases.sched_in_turn). by vm_compute.
Defined.

(** X9: a run always ends: some schedule takes it to the return of [run]
    or to a panic, and no schedule has more than [7 * n + 8] steps, where
    [n] is the number of discovered drivers. *)
Theorem run_terminates_within e :
  (exists sched s,
     exec e sched run_entry = Some s /\ terminated (pc s) = true) /\
  (forall sched s, exec e sched run_entry = Some s ->
     (length sched <= 7 * length (official e).1 + 8)%nat).
Proof.
  split; [apply run_terminates|].
  intros sched s Hex.
  assert (inv e run_entry) as Hinv by (apply inv_entry; constructor).
  pose proof (exec_bounded _ _ _ _ Hinv Hex) as Hb.
  assert (measure e run_entry <= 7 * length (official e).1 + 8)%nat as Hm.
  { unfold measure. simpl. unfold step_main. simpl.
    destruct (listDrivers [] (official e)) as [[[ds [x|]] h]|msg] eqn:E;
      unfold weight_of; simpl; try lia.
    apply listDrivers_spec in E as [(_ & Hl & _) _].
    apply (f_equal length) in Hl. rewrite !length_fmap in Hl. lia. }
  lia.
Qed.

(** ** analyzeCode called again and again *)

Lemma wrap64_range z : - 2 ^ 63 <= wrap64 z < 2 ^ 63.
Proof.
  unfold wrap64. pose proof (Z.mod_pos_bound (z + 2 ^ 63) (2 ^ 64)). lia.
Qed.

Lemma wrap64_id z : - 2 ^ 63 <= z < 2 ^ 63 -> wrap64 z = z.
Proof. intros H. unfold wrap64. rewrite Z.mod_small; lia. Qed.

Lemma wrap64_add a b : wrap64 (wrap64 a + b) = wrap64 (a + b).
Proof.
  unfold wrap64.
  replace ((a + 2 ^ 63) `mod` 2 ^ 64 - 2 ^ 63 + b + 2 ^ 63)
    with ((a + 2 ^ 63) `mod` 2 ^ 64 + b) by lia.
  rewrite Zplus_mod_idemp_l. do 2 f_equal. lia.
Qed.

Lemma analyzeCode_step h d ts tbl :
  h !! codeUast d = Some tbl ->
  analyzeCode h d ts =
  Ret (<[codeUast d :=
           <["Identifier" := wrap64 (default 0 (tbl !! "Identifier") + 1)]> tbl]> h).
Proof.
  intros Htbl. unfold analyzeCode, map_assign.
  by rewrite (map_index_lookup _ _ _ _ Htbl), Htbl.
Qed.

(** X10: [analyzeCode] panics when the code map of its driver is the nil
    map.  Otherwise it never fails, and [k] calls in a row leave the
    count under [Identifier] at the old count plus [k], wrapped to 64
    bits (so exactly the old count plus [k] as long as that stays below
    2^63); they change no other key of that map, no other map, and not
    the number of maps. *)
Theorem analyzeCode_accumulates h d ts :
  (h !! codeUast d = None ->
   forall k, analyzeCode_times (S k) h d ts =
             Panic "assignment to entry in nil map") /\
  (forall tbl k,
     h !! codeUast d = Some tbl ->
     - 2 ^ 63 <= default 0 (tbl !! "Identifier") < 2 ^ 63 ->
     exists h',
       analyzeCode_times k h d ts = Ret h' /\
       length h' = length h /\
       map_index h' (codeUast d) "Identifier" =
         wrap64 (map_index h (codeUast d) "Identifier" + Z.of_nat k) /\
       (map_index h (codeUast d) "Identifier" + Z.of_nat k < 2 ^ 63 ->
        map_index h' (codeUast d) "Identifier" =
          map_index h (codeUast d) "Identifier" + Z.of_nat k) /\
       (forall m key, key <> "Identifier" ->
          map_index h' m key = map_index h m key) /\
       (forall m, m <> codeUast d -> h' !! m = h !! m)).
Proof.
  split.
  - intros Hnil k. simpl. unfold analyzeCode, map_assign. by rewrite Hnil.
  - intros tbl k. revert h tbl.
    induction k as [|k IH]; intros h tbl Htbl Hrange.
    + exists h. rewrite (map_index_lookup _ _ _ _ Htbl).
      rewrite Z.add_0_r, wrap64_id by done. by split_and!.
    + cbn [analyzeCode_times]. rewrite (analyzeCode_step _ _ _ _ Htbl).
      cbn [bind].
      set (tbl1 := <["Identifier" :=
                       wrap64 (default 0 (tbl !! "Identifier") + 1)]> tbl).
      set (h1 := <[codeUast d := tbl1]> h).
      pose proof (lookup_lt_Some _ _ _ Htbl) as Hlt.
      assert (h1 !! codeUast d = Some tbl1) as Htbl1
          by (by apply list_lookup_insert_eq).
      assert (default 0 (tbl1 !! "Identifier") =
              wrap64 (default 0 (tbl !! "Identifier") + 1)) as Hc1
          by (unfold tbl1; by rewrite lookup_insert_eq).
      destruct (IH h1 tbl1 Htbl1) as (h' & Hex & Hlen & Hcnt & _ & Hkeys & Hmaps).
      { rewrite Hc1. apply wrap64_range. }
      assert (map_index h' (codeUast d) "Identifier" =
              wrap64 (map_index h (codeUast d) "Identifier" + Z.of_nat (S k)))
        as Hcnt'.
      { rewrite Hcnt. rewrite (map_index_lookup _ _ _ _ Htbl1), Hc1.
        rewrite (map_index_lookup _ _ _ _ Htbl), wrap64_add.
        f_equal. lia. }
      exists h'. split_and!.
      * done.
      * rewrite Hlen. unfold h1. by rewrite length_insert.
      * done.
      * intros Hsmall. rewrite Hcnt'. apply wrap64_id.
        rewrite (map_index_lookup _ _ _ _ Htbl) in *. lia.
      * intros m key Hkey. rewrite Hkeys by done. unfold map_index, h1.
        destruct (decide (m = codeUast d)) as [->|Hne].
        -- rewrite list_lookup_insert_eq by done. rewrite Htbl.
           unfold tbl1. by rewrite lookup_insert_ne.
        -- by rewrite list_lookup_insert_ne.
      * intros m Hm. rewrite Hmaps by done. unfold h1.
        by rewrite list_lookup_insert_ne.
Qed.

Example analyzeCode_overflow :
  analyzeCode [{["Identifier" := 2 ^ 63 - 1]}]
              (mkDriverStats "" "" "" 0%nat 0%nat) []
  = Ret [{["Identifier" := - 2 ^ 63]}].
Proof. by vm_compute. Qed.

(** ** Characters of the report *)

Lemma count_char_app c a b :
  count_char c (a +:+ b) = (count_char c a + count_char c b)%nat.
Proof.
  induction a as [|x a IH]; [done|].
  rewrite append_cons. cbn [count_char]. rewrite IH. lia.
Qed.

Lemma count_char_spaces c k : c <> " "%char -> count_char c (spaces k) = 0%nat.
Proof.
  intros Hc. induction k as [|k IH]; [done|].
  cbn [spaces]. rewrite count_char_app, IH.
  cbn [count_char]. destruct (Ascii.eqb_spec " "%char c); [congruence|done].
Qed.

Lemma count_char_pretty_N_go c x s :
  no_digit c -> count_char c (pretty_N_go x s) = count_char c s.
Proof.
  intros Hc. revert s. induction (N.lt_wf_0 x) as [x _ IH]; intros s.
  assert (x = 0 \/ 0 < x)%N as [->|Hx] by lia.
  - by rewrite pretty_N_go_0.
  - rewrite pretty_N_go_step by done. rewrite IH by (by apply N.div_lt).
    cbn [count_char].
    destruct (Ascii.eqb_spec (pretty_N_char (x `mod` 10)) c) as [E|_]; [|done].
    by destruct (Hc _ E).
Qed.

Lemma count_char_pretty_N c (x : N) :
  no_digit c -> count_char c (pretty x) = 0%nat.
Proof.
  intros Hc. unfold pretty, pretty_N. case_decide.
  - cbn [count_char]. destruct (Ascii.eqb_spec "0"%char c) as [E|_]; [|done].
    by destruct (Hc 0%N E).
  - by rewrite count_char_pretty_N_go.
Qed.

Lemma count_char_fmt_d c z :
  no_digit c -> c <> "-"%char -> count_char c (fmt_d z) = 0%nat.
Proof.
  intros Hc Hdash. destruct z as [|p|p].
  - change (fmt_d 0) with "0". cbn [count_char].
    destruct (Ascii.eqb_spec "0"%char c) as [E|_]; [|done].
    by destruct (Hc 0%N E).
  - change (fmt_d (Z.pos p)) with (pretty (Npos p)).
    by apply count_char_pretty_N.
  - change (fmt_d (Z.neg p)) with ("-" +:+ pretty (Npos p)).
    rewrite count_char_app, count_char_pretty_N by done. cbn [count_char].
    destruct (Ascii.eqb_spec "-"%char c) as [E|_]; [congruence|done].
Qed.

Lemma no_digit_decide c :
  Forall (fun n => pretty_N_char n <> c) [0; 1; 2; 3; 4; 5; 6; 7; 8; 9]%N ->
  no_digit c.
Proof.
  intros H n. rewrite Forall_forall in H.
  assert (pretty_N_char n = pretty_N_char (N.min n 9)) as ->.
  { unfold pretty_N_char. destruct n as [|p]; [done|].
    do 4 (destruct p as [p|p|]; try done). }
  apply H. assert (N.min n 9 <= 9)%N as Hle by lia.
  set (m := N.min n 9) in *. clearbody m.
  assert (m = 0 \/ m = 1 \/ m = 2 \/ m = 3 \/ m = 4 \/ m = 5 \/ m = 6 \/
          m = 7 \/ m = 8 \/ m = 9)%N as Hm by lia.
  apply list_elem_of_In. simpl. intuition auto.
Qed.

Lemma no_digit_slash : no_digit "/"%char.
Proof. apply no_digit_decide. by repeat constructor. Qed.

Lemma no_digit_space : no_digit " "%char.
Proof. apply no_digit_decide. by repeat constructor. Qed.

Lemma no_digit_bar : no_digit "|"%char.
Proof. apply no_digit_decide. by repeat constructor. Qed.

Lemma no_digit_newline : no_digit newline.
Proof. apply no_digit_decide. by repeat constructor. Qed.

(** Two texts cut at the first occurrence of [c]. *)
Lemma split_at_first c a1 a2 : forall r1 r2,
  count_char c a1 = 0%nat -> count_char c a2 = 0%nat ->
  a1 +:+ String c r1 = a2 +:+ String c r2 -> a1 = a2 /\ r1 = r2.
Proof.
  revert a2. induction a1 as [|x a1 IH]; intros [|y a2] r1 r2 H1 H2 E.
  - rewrite !append_nil_l in E. by simplify_eq.
  - rewrite append_nil_l, append_cons in E. simplify_eq.
    cbn [count_char] in H2. rewrite Ascii.eqb_refl in H2. lia.
  - rewrite append_nil_l, append_cons in E. simplify_eq.
    cbn [count_char] in H1. rewrite Ascii.eqb_refl in H1. lia.
  - rewrite !append_cons in E. injection E as -> E.
    cbn [count_char] in H1, H2.
    destruct (IH a2 r1 r2) as [-> ->]; [lia|lia|done|done].
Qed.

(** X11: a cell can be read back: two cells with the same text show the
    same fixture count and the same code count. *)
Theorem cell_injective h t d h' t' d' :
  cell h t d = cell h' t' d' ->
  map_index h (fixturesUast d) (name t) =
    map_index h' (fixturesUast d') (name t') /\
  map_index h (codeUast d) (name t) = map_index h' (codeUast d') (name t').
Proof.
  unfold cell.
  set (f := map_index h (fixturesUast d) (name t)).
  set (c := map_index h (codeUast d) (name t)).
  set (f' := map_index h' (fixturesUast d') (name t')).
  set (c' := map_index h' (codeUast d') (name t')).
  intros E.
  change (String " " (fmt_d f +:+ String "/" (fmt_d c +:+ String " " "|")) =
          String " " (fmt_d f' +:+ String "/" (fmt_d c' +:+ String " " "|")))
    in E.
  injection E as E.
  apply split_at_first in E as [Ef E];
    [|by apply count_char_fmt_d; [apply no_digit_slash|]..].
  apply split_at_first in E as [Ec _];
    [|by apply count_char_fmt_d; [apply no_digit_space|]..].
  split; by apply (inj pretty).
Qed.

Lemma cell_injective_witness :
  map_index Scenario.maps (fixturesUast Scenario.A) "Identifier" =
    map_index Scenario.maps' (fixturesUast Scenario.A') "Identifier" /\
  map_index Scenario.maps (codeUast Scenario.A) "Identifier" =
    map_index Scenario.maps' (codeUast Scenario.A') "Identifier".
Proof.
  apply (cell_injective Scenario.maps (mkUastType "Identifier") Scenario.A
                        Scenario.maps' (mkUastType "Identifier") Scenario.A').
  by vm_compute.
Defined.

Lemma count_char_print_each {A} c (f : A -> string) (l : list A) k :
  (forall a, a ∈ l -> count_char c (f a) = k) ->
  count_char c (print_each f l) = (length l * k)%nat.
Proof.
  induction l as [|a l IH]; intros H; [done|].
  rewrite print_each_cons, count_char_app, IH, (H a); [simpl; lia|by left|].
  intros b Hb. apply H. by right.
Qed.

Lemma count_char_fmt_s c wid s :
  c <> " "%char -> count_char c (fmt_s wid s) = count_char c s.
Proof.
  intros Hc. unfold fmt_s. by rewrite count_char_app, count_char_spaces.
Qed.

Lemma count_char_cell_bar h t d : count_char "|" (cell h t d) = 1%nat.
Proof.
  unfold cell. rewrite !count_char_app.
  rewrite !count_char_fmt_d by (done || apply no_digit_bar). done.
Qed.

Lemma count_char_cell_newline h t d : count_char newline (cell h t d) = 0%nat.
Proof.
  unfold cell. rewrite !count_char_app.
  rewrite !count_char_fmt_d by (done || apply no_digit_newline). done.
Qed.

(** X12: when no language and no type name contains a bar or a line
    break, the table is rectangular: the row of a type is one line, ended
    by its line break, with one bar more than columns, that is
    [len(drivers) + 2] bars, and the header is two such lines with the same
    number of bars. *)
Theorem table_is_rectangular h ds t :
  Forall (fun d => count_char "|" (language d) = 0%nat /\
                   count_char newline (language d) = 0%nat) ds ->
  count_char "|" (name t) = 0%nat ->
  count_char newline (name t) = 0%nat ->
  (exists line, row h ds t = line +:+ nl /\
                count_char "|" line = (length ds + 2)%nat /\
                count_char newline line = 0%nat) /\
  (exists line1 line2,
     formatMarkdownTableHeader ds = line1 +:+ nl +:+ line2 +:+ nl /\
     count_char "|" line1 = (length ds + 2)%nat /\
     count_char newline line1 = 0%nat /\
     count_char "|" line2 = (length ds + 2)%nat /\
     count_char newline line2 = 0%nat).
Proof.
  intros Hds Hbar Hnl. rewrite Forall_forall in Hds. split.
  - exists ("|" +:+ fmt_s 25 (name t) +:+ "|" +:+ print_each (cell h t) ds).
    split_and!.
    + unfold row. by rewrite !append_assoc.
    + rewrite !count_char_app, count_char_fmt_s, Hbar by done.
      rewrite (count_char_print_each _ _ _ 1%nat)
        by (intros; apply count_char_cell_bar).
      change (count_char "|" "|") with 1%nat. lia.
    + rewrite !count_char_app, count_char_fmt_s, Hnl by done.
      rewrite (count_char_print_each _ _ _ 0%nat)
        by (intros; apply count_char_cell_newline).
      change (count_char newline "|") with 0%nat. lia.
  - exists ("|" +:+ fmt_s 25 "" +:+ "|"
            +:+ print_each (fun dr => fmt_s 5 (language dr) +:+ "|") ds),
           ("| :---------------------- |"
            +:+ print_each (fun _ : driverStats => " :-- |") ds).
    split_and!.
    + unfold formatMarkdownTableHeader. by rewrite !append_assoc.
    + rewrite !count_char_app, count_char_fmt_s by done.
      rewrite (count_char_print_each _ _ _ 1%nat).
      * change (count_char "|" "|") with 1%nat.
        change (count_char "|" "") with 0%nat. lia.
      * intros d Hd. rewrite count_char_app, count_char_fmt_s by done.
        by rewrite (proj1 (Hds d Hd)).
    + rewrite !count_char_app, count_char_fmt_s by done.
      rewrite (count_char_print_each _ _ _ 0%nat).
      * change (count_char newline "|") with 0%nat.
        change (count_char newline "") with 0%nat. lia.
      * intros d Hd. rewrite count_char_app, count_char_fmt_s by done.
        by rewrite (proj2 (Hds d Hd)).
    + rewrite count_char_app.
      rewrite (count_char_print_each _ _ _ 1%nat) by done.
      change (count_char "|" "| :---------------------- |") with 2%nat. lia.
    + rewrite count_char_app.
      rewrite (count_char_print_each _ _ _ 0%nat) by done.
      change (count_char newline "| :---------------------- |") with 0%nat.
      lia.
Qed.

Lemma table_is_rectangular_witness :
  exists line,
    row Scenario.maps [Scenario.A; Scenario.B] (mkUastType "Comment") =
    line +:+ nl /\
    count_char "|" line = 4%nat /\ count_char newline line = 0%nat.
Proof.
  refine (proj1 (table_is_rectangular Scenario.maps [Scenario.A; Scenario.B]
                   (mkUastType "Comment") _ eq_refl eq_refl)).
  by repeat constructor.
Defined.
